(** * input-remapper: the injection [Context]

    A shallow embedding of [inputremapper/injection/context.py]: the
    process-wide object that derives, from a [Mapping], the joystick
    purposes, the callback registry used for event dispatch and the two
    resolution tables ([macros] and [key_to_code]).

    Python objects are modelled as follows.
    - An event triple [(type, code, value)] is a triple of [Z].
    - A [dict] whose iteration order does not matter for the result is a
      [gmap]; the handler dict, which is iterated, is an association list in
      insertion order.
    - An attribute that [__init__] does not assign is an [option] field that
      is [None]; reading it raises [AttributeError].
    - Calls to [logger] are collected, in order, in a log; a function that
      may call [logger] returns a [Logged] value.
    - Functions imported from modules that are not part of this file
      ([is_this_a_macro], [parse], [system_mapping.get], [parse_mapping],
      [handler.notify]) are the fields of the class [Collaborators]. *)

From stdpp Require Import base option list gmap strings.
From Stdlib Require Import ZArith Factorial Ascii.

Local Open Scope Z_scope.

(** ** Events, chords and keys *)

(** [(event_type, event_code, event_value)] *)
Definition Event : Type := Z * Z * Z.

Definition event_type (e : Event) : Z := e.1.1.
Definition event_code (e : Event) : Z := e.1.2.
Definition event_value (e : Event) : Z := e.2.

(** Modelled from the spec: the class [Key] of [inputremapper.key], which
    context.py imports.  A chord is an ordered, non-empty sequence of event
    triples whose final triple is the trigger; empty chords are rejected
    when the mapping is parsed, so a [Key] always has a trigger. *)
Record Key : Type := mkKey {
  modifiers : list Event;
  trigger : Event;
}.

(** [key.keys]: the tuple of triples, trigger last. *)
Definition keys (key : Key) : list Event := modifiers key ++ [trigger key].

(** Modelled from the spec: [Key.get_permutations] of [inputremapper.key].
    The identity chord plus one variant per reordering of the non-trigger
    triples, the trigger triple always last. *)
Definition get_permutations (key : Key) : list Key :=
  (λ p, mkKey p (trigger key)) <$> permutations (modifiers key).

(** Two chords are the same binding when they hold the same multiset of
    non-trigger triples and the same trigger. *)
Definition same_binding (k1 k2 : Key) : Prop :=
  modifiers k1 ≡ₚ modifiers k2 ∧ trigger k1 = trigger k2.

(** ** The logger *)

Inductive Level : Type := DEBUG | INFO | ERROR.

Inductive LogArg : Type :=
  | ArgStr (s : string)
  | ArgKeys (k : list Event).

(** One call [logger.<level>(msg, *args)]; the format string is kept as
    written, with its arguments next to it. *)
Record LogRecord : Type := mkLog {
  log_level : Level;
  log_msg : string;
  log_args : list LogArg;
}.

(** A computation that returns [value] and has emitted [logs]. *)
Record Logged (A : Type) : Type := mkLogged {
  value : A;
  logs : list LogRecord;
}.
Arguments mkLogged {A} _ _.
Arguments value {A} _.
Arguments logs {A} _.

#[export] Instance Logged_ret : MRet Logged := λ A a, mkLogged a [].
#[export] Instance Logged_bind : MBind Logged := λ A B f m,
  let r := f (value m) in mkLogged (value r) (logs m ++ logs r).

Definition logger_debug (msg : string) (args : list LogArg) : Logged () :=
  mkLogged () [mkLog DEBUG msg args].
Definition logger_error (msg : string) (args : list LogArg) : Logged () :=
  mkLogged () [mkLog ERROR msg args].

(** [for x in xs: body], threading the value the body updates. *)
Fixpoint for_each {A S : Type} (xs : list A) (s : S)
    (body : S → A → Logged S) : Logged S :=
  match xs with
  | [] => mret s
  | x :: xs => s' ← body s x; for_each xs s' body
  end.

(** ** Python results *)

Inductive Exception : Type :=
  | AttributeError (obj attr : string).

Inductive PyResult (A : Type) : Type :=
  | Ok (a : A)
  | Raise (e : Exception).
Arguments Ok {A} _.
Arguments Raise {A} _.

#[export] Instance PyResult_ret : MRet PyResult := λ A a, Ok a.
#[export] Instance PyResult_bind : MBind PyResult := λ A B f m,
  match m with Ok a => f a | Raise e => Raise e end.

(** [obj.attr] for an attribute that may not have been assigned. *)
Definition getattr {A : Type} (attr : string) (field : option A) : PyResult A :=
  match field with
  | Some a => Ok a
  | None => Raise (AttributeError "Context" attr)
  end.

(** ** The mapping *)

(** [(output_symbol, target_uinput)] *)
Definition Output : Type := string * string.

(** The [Mapping] that the context wraps: iterating it yields the
    [(key, output)] entries in order, and [get] reads a configuration value
    by its dotted name ([None] is Python's [None]). *)
Record Mapping : Type := mkMapping {
  mapping_iter : list (Key * Output);
  mapping_get : string → option string;
}.

(** Modelled from the spec: the joystick purposes of [inputremapper.config],
    one of none, mouse-motion, scroll-wheel and directional-buttons. *)
Definition NONE : string := "none".
Definition MOUSE : string := "mouse".
Definition WHEEL : string := "wheel".
Definition BUTTONS : string := "buttons".

Definition all_purposes : list string := [NONE; MOUSE; WHEEL; BUTTONS].

(** ** The context *)

Section Context.

Variables Macro Handler Callback : Type.

(** The attributes of a [Context].  [macros] and [key_to_code] are the two
    attributes that the methods read and that the class documents; they are
    [None] while unassigned.  A handler is registered under the event triple
    it is triggered by. *)
Record Context : Type := mkContext {
  mapping : Mapping;
  left_purpose : option string;
  right_purpose : option string;
  last_btn_down_event : option Z * option Z;
  last_btn_up_event : option Z * option Z;
  callbacks : gmap (Z * Z) (list Callback);
  _handlers : list (Event * list Handler);
  macros : option (gmap (list Event) (Macro * string));
  key_to_code : option (gmap (list Event) (Z * string));
}.

Definition set_purposes (self : Context) (l r : option string) : Context :=
  mkContext (mapping self) l r (last_btn_down_event self)
    (last_btn_up_event self) (callbacks self) (_handlers self) (macros self)
    (key_to_code self).

Definition set_callbacks (self : Context)
    (c : gmap (Z * Z) (list Callback)) : Context :=
  mkContext (mapping self) (left_purpose self) (right_purpose self)
    (last_btn_down_event self) (last_btn_up_event self) c (_handlers self)
    (macros self) (key_to_code self).

Definition set_handlers (self : Context)
    (h : list (Event * list Handler)) : Context :=
  mkContext (mapping self) (left_purpose self) (right_purpose self)
    (last_btn_down_event self) (last_btn_up_event self) (callbacks self) h
    (macros self) (key_to_code self).

Definition set_macros (self : Context)
    (m : gmap (list Event) (Macro * string)) : Context :=
  mkContext (mapping self) (left_purpose self) (right_purpose self)
    (last_btn_down_event self) (last_btn_up_event self) (callbacks self)
    (_handlers self) (Some m) (key_to_code self).

Definition set_key_to_code (self : Context)
    (k : gmap (list Event) (Z * string)) : Context :=
  mkContext (mapping self) (left_purpose self) (right_purpose self)
    (last_btn_down_event self) (last_btn_up_event self) (callbacks self)
    (_handlers self) (macros self) (Some k).

(** The functions context.py imports and calls.  [parse], the macro
    compiler, shares the logger with the context: it returns the program, or
    [None], together with what it has logged. *)
Class Collaborators : Type := {
  is_this_a_macro : string → bool;
  parse : string → Context → Logged (option Macro);
  system_mapping_get : string → option Z;
  parse_mapping : Mapping → Context → list (Event * list Handler);
  notify : Handler → Callback;
}.

End Context.

Arguments mkContext {Macro Handler Callback}.
Arguments mapping {Macro Handler Callback} _.
Arguments left_purpose {Macro Handler Callback} _.
Arguments right_purpose {Macro Handler Callback} _.
Arguments last_btn_down_event {Macro Handler Callback} _.
Arguments last_btn_up_event {Macro Handler Callback} _.
Arguments callbacks {Macro Handler Callback} _.
Arguments _handlers {Macro Handler Callback} _.
Arguments macros {Macro Handler Callback} _.
Arguments key_to_code {Macro Handler Callback} _.
Arguments set_purposes {Macro Handler Callback} _ _ _.
Arguments set_callbacks {Macro Handler Callback} _ _.
Arguments set_handlers {Macro Handler Callback} _ _.
Arguments set_macros {Macro Handler Callback} _ _.
Arguments set_key_to_code {Macro Handler Callback} _ _.
Arguments is_this_a_macro {Macro Handler Callback _} _.
Arguments parse {Macro Handler Callback _} _ _.
Arguments system_mapping_get {Macro Handler Callback _} _.
Arguments parse_mapping {Macro Handler Callback _} _ _.
Arguments notify {Macro Handler Callback _} _.

(** ** The methods of [Context] *)

Section Methods.

Context {Macro Handler Callback : Type}.
Context {collaborators : Collaborators Macro Handler Callback}.

Local Abbreviation Ctx := (Context Macro Handler Callback).

(** Modelled from the spec: [key[:2]] on a key of the handler dict, the
    dispatch key [(event_type, event_code)] of the triple the handler is
    registered under, its [event_value] discarded. *)
Definition slice2 (key : Event) : Z * Z := (event_type key, event_code key).

Definition update_purposes (self : Ctx) : Ctx :=
  set_purposes self
    (mapping_get (mapping self) "gamepad.joystick.left_purpose")
    (mapping_get (mapping self) "gamepad.joystick.right_purpose").

(** The loop body of [update_callbacks]: the list under [key[:2]] is set to
    the empty list, then the handlers' [notify] are appended to it. *)
Definition register_handlers (callbacks : gmap (Z * Z) (list Callback))
    (item : Event * list Handler) : gmap (Z * Z) (list Callback) :=
  let '(key, handler_list) := item in
  foldl (λ callbacks handler,
           alter (λ l, l ++ [notify handler]) (slice2 key) callbacks)
        (<[slice2 key := []]> callbacks) handler_list.

Definition update_callbacks (self : Ctx) : Ctx :=
  set_callbacks self (foldl register_handlers (callbacks self) (_handlers self)).

Definition __init__ (mapping : Mapping) : Ctx :=
  let self := mkContext mapping None None (None, None) (None, None) ∅ [] None None in
  let self := update_purposes self in
  let self := set_handlers self (parse_mapping mapping self) in
  update_callbacks self.

(** What the inner loop of both builders leaves in the table: every
    permutation of [key] is bound to [v], later ones written over earlier
    ones. *)
Definition insert_permutations {V : Type} (table : gmap (list Event) V)
    (key : Key) (v : V) : gmap (list Event) V :=
  foldl (λ table permutation, <[keys permutation := v]> table) table
        (get_permutations key).

(** The body of the loop of [_parse_macros], for one entry of the mapping. *)
Definition parse_macros_entry (self : Ctx)
    (macros : gmap (list Event) (Macro * string)) (entry : Key * Output)
    : Logged (gmap (list Event) (Macro * string)) :=
  let '(key, output) := entry in
  if is_this_a_macro output.1 then
    macro ← parse output.1 self;
    match macro with
    | None => mret macros
    | Some macro =>
        for_each (get_permutations key) macros (λ macros permutation,
          mret (<[keys permutation := (macro, output.2)]> macros))
    end
  else mret macros.

Definition _parse_macros (self : Ctx)
    : Logged (gmap (list Event) (Macro * string)) :=
  logger_debug "Parsing macros" [];;
  macros ← for_each (mapping_iter (mapping self)) ∅ (parse_macros_entry self);
  (if bool_decide (size macros = 0%nat)
   then logger_debug "No macros configured" []
   else mret ());;
  mret macros.

Definition dquote : string := String (Ascii.ascii_of_nat 34) EmptyString.

Definition unknown_symbol_msg : string :=
  "Don't know what " +:+ dquote +:+ "%s" +:+ dquote +:+ " is".

Definition unexpected_value_msg : string :=
  "Expected values to be -1 or 1 at this point: %s".

(** [permutation.keys[-1][-1]]: the value of the last triple of the chord,
    which is its trigger (lemma [last_keys]). *)
Definition last_value (permutation : Key) : Z :=
  event_value (trigger permutation).

(** The body of the loop of [_map_keys_to_codes], for one entry. *)
Definition map_keys_entry
    (key_to_code : gmap (list Event) (Z * string)) (entry : Key * Output)
    : Logged (gmap (list Event) (Z * string)) :=
  let '(key, output) := entry in
  if is_this_a_macro output.1 then mret key_to_code
  else
    match system_mapping_get output.1 with
    | None =>
        logger_error unknown_symbol_msg [ArgStr output.1];;
        mret key_to_code
    | Some target_code =>
        for_each (get_permutations key) key_to_code (λ key_to_code permutation,
          (if bool_decide (last_value permutation ∉ [-1; 1])
           then logger_error unexpected_value_msg [ArgKeys (keys permutation)]
           else mret ());;
          mret (<[keys permutation := (target_code, output.2)]> key_to_code))
    end.

Definition _map_keys_to_codes (self : Ctx)
    : Logged (gmap (list Event) (Z * string)) :=
  for_each (mapping_iter (mapping self)) ∅ map_keys_entry.

(** [_map_keys_to_codes] with the check of the value taken out of the inner
    loop; everything else is as above. *)
Definition map_keys_entry_unchecked
    (key_to_code : gmap (list Event) (Z * string)) (entry : Key * Output)
    : Logged (gmap (list Event) (Z * string)) :=
  let '(key, output) := entry in
  if is_this_a_macro output.1 then mret key_to_code
  else
    match system_mapping_get output.1 with
    | None =>
        logger_error unknown_symbol_msg [ArgStr output.1];;
        mret key_to_code
    | Some target_code =>
        for_each (get_permutations key) key_to_code (λ key_to_code permutation,
          mret (<[keys permutation := (target_code, output.2)]> key_to_code))
    end.

Definition map_keys_to_codes_unchecked (self : Ctx)
    : Logged (gmap (list Event) (Z * string)) :=
  for_each (mapping_iter (mapping self)) ∅ map_keys_entry_unchecked.

(** The context once the two tables that the class documents are assigned
    from their builders:
    [self.macros = self._parse_macros()] and
    [self.key_to_code = self._map_keys_to_codes()]. *)
Definition with_tables (self : Ctx) : Ctx :=
  let self := set_macros self (value (_parse_macros self)) in
  set_key_to_code self (value (_map_keys_to_codes self)).

(** An entry's output resolves when its macro compiles or, for a key name,
    when the symbol table knows it. *)
Definition resolves (self : Ctx) (output : Output) : Prop :=
  if is_this_a_macro output.1 then is_Some (value (parse output.1 self))
  else is_Some (system_mapping_get output.1).

(** What the compiler logs while [_parse_macros] runs over the entries: the
    records of each call of [parse], in the order of the calls. *)
Definition compiler_logs (self : Ctx) (entries : list (Key * Output))
    : list LogRecord :=
  entries ≫= λ entry,
    if is_this_a_macro entry.2.1 then logs (parse entry.2.1 self) else [].

(** Modelled from the spec: the macro compiler [parse] of
    [inputremapper/injection/macros/parse.py].  Compiling an output string
    yields a program or none, and when it yields none a diagnostic is
    recorded. *)
Definition records_failures (self : Ctx) : Prop :=
  ∀ s, value (parse s self) = None → logs (parse s self) ≠ [].

Definition is_mapped (self : Ctx) (key : list Event) : PyResult bool :=
  macros ← getattr "macros" (macros self);
  if bool_decide (is_Some (macros !! key)) then mret true
  else
    key_to_code ← getattr "key_to_code" (key_to_code self);
    mret (bool_decide (is_Some (key_to_code !! key))).

Definition maps_joystick (self : Ctx) : bool :=
  negb (bool_decide ((left_purpose self, right_purpose self) = (Some NONE, Some NONE))).

Definition joystick_as_mouse (self : Ctx) : bool :=
  let purposes := [left_purpose self; right_purpose self] in
  bool_decide (Some MOUSE ∈ purposes) || bool_decide (Some WHEEL ∈ purposes).

Definition joystick_as_dpad (self : Ctx) : bool :=
  let purposes := [left_purpose self; right_purpose self] in
  bool_decide (Some BUTTONS ∈ purposes).

Definition writes_keys (self : Ctx) : PyResult bool :=
  macros ← getattr "macros" (macros self);
  if bool_decide (0 < size macros)%nat then
    key_to_code ← getattr "key_to_code" (key_to_code self);
    mret (bool_decide (0 < size key_to_code)%nat)
  else mret false.

End Methods.

(** ** A concrete session

    Macro programs, handlers and callbacks are named by strings.  Two
    outputs look like macros, of which one compiles; for the other the
    compiler logs an error.  The symbol table knows two key names. *)

Module Example.

Definition is_macro (s : string) : bool := bool_decide (s ∈ ["key(b)"; "key()"]).

Definition compile (s : string) (self : Context string string string)
    : Logged (option string) :=
  if bool_decide (s = "key(b)") then mret (Some s)
  else logger_error "Failed to parse macro %s" [ArgStr s];; mret None.

Definition symbols (s : string) : option Z :=
  if bool_decide (s = "a") then Some 30
  else if bool_decide (s = "b") then Some 48
  else None.

Definition EV_KEY : Z := 1.
Definition EV_ABS : Z := 3.
Definition KEY_A : Z := 30.
Definition KEY_LEFTSHIFT : Z := 42.
Definition KEY_LEFTCTRL : Z := 29.

(** Two handlers on the same physical key: one for its press, one for its
    release. *)
Definition handlers : list (Event * list string) :=
  [((EV_KEY, KEY_A, 1), ["on_press"]); ((EV_KEY, KEY_A, 0), ["on_release"])].

#[global] Instance collaborators : Collaborators string string string := {|
  is_this_a_macro := is_macro;
  parse := compile;
  system_mapping_get := symbols;
  parse_mapping := λ _ _, handlers;
  notify := λ h, h +:+ ".notify";
|}.

Definition config (l r : string) (name : string) : option string :=
  if bool_decide (name = "gamepad.joystick.left_purpose") then Some l
  else if bool_decide (name = "gamepad.joystick.right_purpose") then Some r
  else None.

Definition shift : Event := (EV_KEY, KEY_LEFTSHIFT, 1).
Definition ctrl : Event := (EV_KEY, KEY_LEFTCTRL, 1).
Definition a_down : Event := (EV_KEY, KEY_A, 1).

(** [shift + ctrl + a] writes [b]. *)
Definition direct_mapping : Mapping :=
  mkMapping [(mkKey [shift; ctrl] a_down, ("b", "keyboard"))] (config NONE NONE).

(** [a] is mapped to a name the symbol table does not know. *)
Definition unknown_mapping : Mapping :=
  mkMapping [(mkKey [] a_down, ("nonexistent", "keyboard"))] (config NONE NONE).

(** The same three keys configured twice, the modifiers in either order:
    once as a macro, once as a key. *)
Definition twice_mapping : Mapping :=
  mkMapping [(mkKey [shift; ctrl] a_down, ("key(b)", "keyboard"));
             (mkKey [ctrl; shift] a_down, ("a", "keyboard"))] (config NONE NONE).

(** A modifier with an analog value next to a digital trigger, and a
    digital modifier next to a trigger whose value is 0. *)
Definition analog_modifier_mapping : Mapping :=
  mkMapping [(mkKey [(EV_ABS, 0, 5)] a_down, ("a", "keyboard"))] (config NONE NONE).
Definition release_trigger_mapping : Mapping :=
  mkMapping [(mkKey [shift] (EV_KEY, KEY_A, 0), ("a", "keyboard"))] (config NONE NONE).

(** An unknown name between two known ones, and the same mapping without
    the entry of the unknown name. *)
Definition partly_unknown_mapping : Mapping :=
  mkMapping [(mkKey [shift; ctrl] a_down, ("b", "keyboard"));
             (mkKey [] a_down, ("nonexistent", "keyboard"));
             (mkKey [] shift, ("a", "keyboard"))] (config NONE NONE).
Definition known_part_mapping : Mapping :=
  mkMapping [(mkKey [shift; ctrl] a_down, ("b", "keyboard"));
             (mkKey [] shift, ("a", "keyboard"))] (config NONE NONE).

(** A macro on one key and a key name on another. *)
Definition mixed_mapping : Mapping :=
  mkMapping [(mkKey [] a_down, ("key(b)", "keyboard"));
             (mkKey [] shift, ("a", "keyboard"))] (config NONE NONE).

(** One macro that compiles, alone. *)
Definition compiled_macro_mapping : Mapping :=
  mkMapping [(mkKey [] a_down, ("key(b)", "keyboard"))] (config MOUSE NONE).

(** One macro that compiles and one that yields no program. *)
Definition macro_mapping : Mapping :=
  mkMapping [(mkKey [] a_down, ("key(b)", "keyboard"));
             (mkKey [] shift, ("key()", "keyboard"))] (config MOUSE NONE).

(** [shift + ctrl + a] with the modifiers in the other order. *)
Definition swapped_mapping : Mapping :=
  mkMapping [(mkKey [ctrl; shift] a_down, ("b", "keyboard"))] (config NONE NONE).

(** Handlers on two different physical keys. *)
Definition distinct_handlers : list (Event * list string) :=
  [((EV_KEY, KEY_A, 1), ["combination"; "key"]);
   ((EV_KEY, KEY_LEFTSHIFT, 1), ["macro"])].

(** The session of a mapping, its two tables assigned. *)
Definition session (m : Mapping) : Context string string string :=
  with_tables (__init__ m).

End Example.

(** * key-mapper: devices

    A shallow embedding of [keymapper/linux.py]: the reader of key codes and
    the grouping of the input devices by the usb port they hang on.

    - A virtual device is the queue of the events that are pending on it;
      [read_one] takes the oldest one, or returns [None] when there is none.
    - An [evdev.InputDevice], as far as [_get_devices] looks at it, is its
      name, its path, its [phys] and the event types it is capable of.
    - [grouped], a dict that is iterated, is an association list in
      insertion order; [result], which is only sent, is a [gmap].
    - A Python [str] is held as its UTF-8 encoding, so [len] counts code
      points, not bytes. *)

Module Linux.

(** [evdev.ecodes.EV_KEY] *)
Definition EV_KEY : Z := 1.

(** *** KeycodeReader *)

Definition VirtualDevice : Type := list Event.

(** [virtual_device.read_one()] *)
Definition read_one (dev : VirtualDevice) : option Event * VirtualDevice :=
  match dev with
  | [] => (None, [])
  | event :: rest => (Some event, rest)
  end.

Record KeycodeReader : Type := mkReader {
  virtual_devices : list VirtualDevice;
}.

(** [while virtual_device.read_one(): pass] *)
Fixpoint drain (dev : VirtualDevice) : VirtualDevice :=
  match dev with
  | [] => []
  | _ :: rest => drain rest
  end.

Definition clear (self : KeycodeReader) : KeycodeReader :=
  mkReader (drain <$> virtual_devices self).

(** [event.type == evdev.ecodes.EV_KEY and event.value == 1] *)
Definition is_key_down (event : Event) : bool :=
  bool_decide (event_type event = EV_KEY) && bool_decide (event_value event = 1).

(** The [while True] loop of [read] on one device: it ends when [read_one]
    returns [None], and leaves the device without pending events. *)
Fixpoint read_device (dev : VirtualDevice) (newest_keycode : option Z)
    : option Z * VirtualDevice :=
  match dev with
  | [] => (newest_keycode, [])
  | event :: rest =>
      read_device rest
        (if is_key_down event then Some (event_code event + 8)
         else newest_keycode)
  end.

(** The [for] loop of [read] over the virtual devices. *)
Fixpoint read_devices (devs : list VirtualDevice) (newest_keycode : option Z)
    : option Z * list VirtualDevice :=
  match devs with
  | [] => (newest_keycode, [])
  | dev :: devs =>
      let '(newest_keycode, dev) := read_device dev newest_keycode in
      let '(newest_keycode, devs) := read_devices devs newest_keycode in
      (newest_keycode, dev :: devs)
  end.

Definition read (self : KeycodeReader) : option Z * KeycodeReader :=
  let '(newest_keycode, devs) := read_devices (virtual_devices self) None in
  (newest_keycode, mkReader devs).

(** *** _get_devices *)

Record InputDevice : Type := mkDevice {
  name : string;
  path : string;
  phys : string;
  capabilities : list Z;
}.

(** [s.split('/')[0]] *)
Fixpoint before_slash (s : string) : string :=
  match s with
  | EmptyString => EmptyString
  | String c rest =>
      if Ascii.eqb c "/"%char then EmptyString
      else String c (before_slash rest)
  end.

(** [d.get(k)], [d[k] = v] and the update in place of [d[k]], on a dict in
    insertion order. *)
Fixpoint dict_get {V : Type} (k : string) (d : list (string * V)) : option V :=
  match d with
  | [] => None
  | (k', v) :: d => if decide (k = k') then Some v else dict_get k d
  end.

Fixpoint dict_set {V : Type} (k : string) (v : V) (d : list (string * V))
    : list (string * V) :=
  match d with
  | [] => [(k, v)]
  | (k', v') :: d =>
      if decide (k = k') then (k, v) :: d else (k', v') :: dict_set k v d
  end.

Fixpoint dict_alter {V : Type} (f : V → V) (k : string) (d : list (string * V))
    : list (string * V) :=
  match d with
  | [] => []
  | (k', v) :: d =>
      if decide (k = k') then (k', f v) :: d else (k', v) :: dict_alter f k d
  end.

(** The body of the first loop: devices that have no keys are passed over;
    the others are appended to the list of their usb port. *)
Definition group_device (grouped : list (string * list (string * string)))
    (device : InputDevice) : list (string * list (string * string)) :=
  if bool_decide (EV_KEY ∉ capabilities device) then grouped
  else
    let usb := before_slash (phys device) in
    let grouped :=
      match dict_get usb grouped with
      | None => dict_set usb [] grouped
      | Some _ => grouped
      end in
    dict_alter (λ group, group ++ [(name device, path device)]) usb grouped.

(** A byte of the form [10xxxxxx] continues a code point that an earlier
    byte has started. *)
Definition is_continuation (c : ascii) : bool :=
  (128 <=? nat_of_ascii c)%nat && (nat_of_ascii c <? 192)%nat.

(** [len(s)]: the number of code points of the string, one for every byte
    that is no continuation byte. *)
Fixpoint len (s : string) : nat :=
  match s with
  | EmptyString => 0%nat
  | String c rest => ((if is_continuation c then 0 else 1) + len rest)%nat
  end.

(** [sorted(names, key=len)]: a stable sort, names of the same length stay
    in their order. *)
Fixpoint insert_by_len (x : string) (sorted : list string) : list string :=
  match sorted with
  | [] => [x]
  | y :: rest =>
      if bool_decide (len x ≤ len y)%nat
      then x :: y :: rest
      else y :: insert_by_len x rest
  end.

Definition sorted_by_len (names : list string) : list string :=
  foldr insert_by_len [] names.

Inductive Raised : Type :=
  | IndexError.

Inductive Outcome (A : Type) : Type :=
  | Returns (a : A)
  | Raises (e : Raised).
Arguments Returns {A} _.
Arguments Raises {A} _.

(** [{'paths': devs, 'devices': names}] *)
Record DeviceGroup : Type := mkGroup {
  paths : list string;
  devices : list string;
}.

(** The body of the second loop; [sorted(...)[0]] raises on an empty list. *)
Definition add_group (result : Outcome (gmap string DeviceGroup))
    (group : list (string * string)) : Outcome (gmap string DeviceGroup) :=
  match result with
  | Raises e => Raises e
  | Returns result =>
      let names := fst <$> group in
      let devs := snd <$> group in
      match sorted_by_len names with
      | [] => Raises IndexError
      | shortest_name :: _ =>
          Returns (<[shortest_name := mkGroup devs names]> result)
      end
  end.

(** [_get_devices], from the devices that [evdev.list_devices()] lists to
    the [result] that is sent through the pipe. *)
Definition _get_devices (evdev_devices : list InputDevice)
    : Outcome (gmap string DeviceGroup) :=
  let grouped := foldl group_device [] evdev_devices in
  foldl add_group (Returns ∅) (snd <$> grouped).

(** The key-capable devices on one usb port, in the order they are listed. *)
Definition has_keys (device : InputDevice) : Prop :=
  EV_KEY ∈ capabilities device.

Definition port_members (evdev_devices : list InputDevice) (usb : string)
    : list InputDevice :=
  filter (λ device, has_keys device ∧ before_slash (phys device) = usb)
         evdev_devices.

(** A keyboard that shows up as two devices on one port, a mouse without
    keys on the same port and a second keyboard on another port. *)
Definition example_devices : list InputDevice :=
  [mkDevice "Logitech USB Keyboard Consumer Control" "/dev/input/event4"
            "usb-0000:03:00.0-4/input1" [0; 1; 4];
   mkDevice "Logitech USB Keyboard" "/dev/input/event3"
            "usb-0000:03:00.0-4/input0" [0; 1; 17];
   mkDevice "Touchpad" "/dev/input/event5" "usb-0000:03:00.0-4/input2" [0; 2];
   mkDevice "Gaming Keyboard" "/dev/input/event7"
            "usb-0000:03:00.0-3/input0" [0; 1]].

(** What [_get_devices] sends for them. *)
Definition example_result : gmap string DeviceGroup :=
  <["Logitech USB Keyboard" :=
      mkGroup ["/dev/input/event4"; "/dev/input/event3"]
              ["Logitech USB Keyboard Consumer Control"; "Logitech USB Keyboard"]]>
  (<["Gaming Keyboard" :=
      mkGroup ["/dev/input/event7"] ["Gaming Keyboard"]]> ∅).

(** Pending events on two virtual devices: a press and a release of key 30,
    then a held key 31 and a press of key 32. *)
Definition example_reader : KeycodeReader :=
  mkReader [[(1, 30, 1); (1, 30, 0)]; [(1, 31, 2); (1, 32, 1); (0, 0, 0)]].

End Linux.

(** * Properties *)

(** ** The logging monad and the [for] loop *)

Lemma value_bind {A B : Type} (m : Logged A) (f : A → Logged B) :
  value (m ≫= f) = value (f (value m)).
Proof. reflexivity. Qed.

Lemma logs_bind {A B : Type} (m : Logged A) (f : A → Logged B) :
  logs (m ≫= f) = logs m ++ logs (f (value m)).
Proof. reflexivity. Qed.

Lemma Logged_eq {A : Type} (m1 m2 : Logged A) :
  value m1 = value m2 → logs m1 = logs m2 → m1 = m2.
Proof. destruct m1, m2; simpl; congruence. Qed.

Lemma for_each_app {A S : Type} (xs ys : list A) (s : S) (body : S → A → Logged S) :
  for_each (xs ++ ys) s body = for_each xs s body ≫= λ s', for_each ys s' body.
Proof.
  revert s. induction xs as [|x xs IH]; intros s; simpl.
  - apply Logged_eq; reflexivity.
  - unfold mbind, Logged_bind; simpl. rewrite IH.
    unfold mbind, Logged_bind; simpl. by rewrite app_assoc.
Qed.

(** A loop whose body logs nothing is a fold. *)
Lemma for_each_silent {A S : Type} (xs : list A) (s : S) (f : S → A → S) :
  for_each xs s (λ s x, mret (f s x)) = mret (foldl f s xs).
Proof.
  revert s. induction xs as [|x xs IH]; intros s; simpl; [reflexivity|].
  unfold mbind, Logged_bind; simpl. by rewrite IH.
Qed.

(** ** The combination expander *)

Lemma length_interleave {A : Type} (x : A) (l : list A) :
  length (interleave x l) = S (length l).
Proof.
  induction l as [|y l IH]; simpl; [reflexivity|].
  rewrite length_fmap, IH. reflexivity.
Qed.

Lemma length_bind_same {A B : Type} (f : A → list B) (n : nat) (l : list A) :
  Forall (λ x, length (f x) = n) l → length (l ≫= f) = (length l * n)%nat.
Proof.
  induction 1 as [|x l Hx _ IH]; csimpl; [reflexivity|].
  rewrite length_app, IH, Hx. reflexivity.
Qed.

Lemma length_permutations {A : Type} (l : list A) :
  length (permutations l) = fact (length l).
Proof.
  induction l as [|x l IH]; simpl; [reflexivity|].
  rewrite (length_bind_same _ (S (length l))).
  - rewrite IH. lia.
  - apply Forall_forall. intros l' Hl'%permutations_Permutation.
    rewrite length_interleave. f_equal. symmetry. by apply Permutation_length.
Qed.

Lemma NoDup_interleave {A : Type} (x : A) (l : list A) :
  x ∉ l → NoDup (interleave x l).
Proof.
  induction l as [|y l IH]; intros Hx; simpl.
  - apply NoDup_singleton.
  - apply not_elem_of_cons in Hx as [Hxy Hx]. apply NoDup_cons. split.
    + intros (l' & [= ? _] & _)%list_elem_of_fmap. by apply Hxy.
    + apply NoDup_fmap_2; [|by apply IH]. by intros ?? [= ->].
Qed.

(** Distinct triples give pairwise distinct reorderings. *)
Lemma NoDup_permutations {A : Type} (l : list A) :
  NoDup l → NoDup (permutations l).
Proof.
  induction 1 as [|x l Hx Hl IH]; simpl.
  - apply NoDup_singleton.
  - apply NoDup_bind; [|intros l' Hl'|done].
    + intros l1 l2 y Hl1 Hl2.
      intros (a1 & b1 & -> & ->)%elem_of_interleave
             (a2 & b2 & Heq & ->)%elem_of_interleave.
      apply permutations_Permutation in Hl1, Hl2.
      rewrite Hl1 in Hx. rewrite Hl2 in Hl1.
      apply not_elem_of_app in Hx as [Hxa1 Hxb1].
      assert (x ∉ a2 ++ b2) as [Hxa2 Hxb2]%not_elem_of_app.
      { rewrite Hl1. rewrite elem_of_app. tauto. }
      destruct (not_elem_of_app_cons_inv_l x x a1 b1 a2 b2)
        as (-> & _ & ->); done.
    + apply NoDup_interleave.
      apply permutations_Permutation in Hl'. by rewrite <- Hl'.
Qed.

Lemma length_keys (key : Key) : length (keys key) = S (length (modifiers key)).
Proof. unfold keys. rewrite length_app. simpl. lia. Qed.

Lemma last_keys (key : Key) : last (keys key) = Some (trigger key).
Proof. unfold keys. apply last_snoc. Qed.

Lemma take_keys (key : Key) :
  take (length (keys key) - 1) (keys key) = modifiers key.
Proof.
  rewrite length_keys. unfold keys.
  replace (S (length (modifiers key)) - 1)%nat with (length (modifiers key)) by lia.
  by rewrite take_app_length.
Qed.

Lemma drop_keys (key : Key) :
  drop (length (keys key) - 1) (keys key) = [trigger key].
Proof.
  rewrite length_keys. unfold keys.
  replace (S (length (modifiers key)) - 1)%nat with (length (modifiers key)) by lia.
  by rewrite drop_app_length.
Qed.

Lemma elem_of_get_permutations (p key : Key) :
  p ∈ get_permutations key ↔ same_binding key p.
Proof.
  unfold get_permutations, same_binding. rewrite list_elem_of_fmap. split.
  - intros (l & -> & Hl%permutations_Permutation). done.
  - intros [Hl Ht]. exists (modifiers p). split.
    + destruct p; simpl in *. by rewrite Ht.
    + by apply permutations_Permutation.
Qed.

Lemma keys_inj (k1 k2 : Key) : keys k1 = keys k2 → k1 = k2.
Proof.
  destruct k1 as [m1 t1], k2 as [m2 t2]. unfold keys; simpl.
  intros H. apply app_inj_tail in H as [-> ->]. reflexivity.
Qed.

Lemma elem_of_permuted_keys (chord : list Event) (key : Key) :
  chord ∈ keys <$> get_permutations key ↔
  ∃ l, l ≡ₚ modifiers key ∧ chord = l ++ [trigger key].
Proof.
  rewrite list_elem_of_fmap. split.
  - intros (p & -> & [Hm Ht]%elem_of_get_permutations).
    exists (modifiers p). unfold keys. by rewrite Ht.
  - intros (l & Hl & ->). exists (mkKey l (trigger key)). split; [done|].
    apply elem_of_get_permutations. split; done.
Qed.

(** C2. For every chord of length [n] the expander yields [(n-1)!]
    permutations; each of them has the chord's trigger triple in the last
    position; a chord is produced exactly when it is a reordering of the
    first [n-1] triples followed by the unchanged rest; a chord of length
    one yields that chord alone; and when the first [n-1] triples are
    pairwise distinct, so are the chords produced. *)
Theorem get_permutations_spec (key : Key) (t : Event) :
  let n := length (keys key) in
  length (get_permutations key) = fact (n - 1)
  ∧ (∀ p, p ∈ get_permutations key →
       length (keys p) = n ∧ last (keys p) = last (keys key))
  ∧ (∀ chord, chord ∈ keys <$> get_permutations key ↔
       ∃ l, l ≡ₚ take (n - 1) (keys key) ∧ chord = l ++ drop (n - 1) (keys key))
  ∧ get_permutations (mkKey [] t) = [mkKey [] t]
  ∧ (NoDup (take (n - 1) (keys key)) → NoDup (keys <$> get_permutations key)).
Proof.
  intros n. subst n.
  split; [|split; [|split; [|split; [reflexivity|]]]]; [|split..|].
  - unfold get_permutations.
    rewrite length_fmap, length_permutations, length_keys. f_equal. lia.
  - apply elem_of_get_permutations in H as [Hm _].
    rewrite !length_keys. f_equal. symmetry. by apply Permutation_length.
  - apply elem_of_get_permutations in H as [_ Ht].
    unfold keys. by rewrite !last_snoc, Ht.
  - rewrite take_keys, drop_keys. by apply elem_of_permuted_keys.
  - rewrite take_keys, drop_keys. by apply elem_of_permuted_keys.
  - rewrite take_keys. intros Hdistinct. unfold get_permutations.
    apply NoDup_fmap_2; [by intros ?? ?%keys_inj|].
    apply NoDup_fmap_2; [by intros ?? [= ->]|].
    by apply NoDup_permutations.
Qed.

(** ** Queries on the context *)

Section QueryFacts.

Context {Macro Handler Callback : Type}.
Context {collaborators : Collaborators Macro Handler Callback}.

Local Abbreviation Ctx := (Context Macro Handler Callback).

Lemma size_pos_non_empty {V : Type} (m : gmap (list Event) V) :
  (0 < size m)%nat ↔ m ≠ ∅.
Proof. rewrite <- map_size_non_empty_iff. lia. Qed.

Lemma init_purposes (m : Mapping) :
  left_purpose (__init__ m) = mapping_get m "gamepad.joystick.left_purpose"
  ∧ right_purpose (__init__ m) = mapping_get m "gamepad.joystick.right_purpose".
Proof. split; reflexivity. Qed.

(** C7. [maps_joystick] is false exactly when both purposes are none,
    [joystick_as_mouse] is true exactly when one of them is mouse or wheel,
    [joystick_as_dpad] is true exactly when one of them is buttons; the three
    results depend on nothing but the two cached purposes, which
    construction reads from the mapping; and the three agree with these
    descriptions on each of the 16 combinations. *)
Theorem joystick_queries_spec (self other : Ctx) (m : Mapping) :
  let l := left_purpose self in
  let r := right_purpose self in
  (maps_joystick self = false ↔ l = Some NONE ∧ r = Some NONE)
  ∧ (joystick_as_mouse self = true ↔
       l = Some MOUSE ∨ r = Some MOUSE ∨ l = Some WHEEL ∨ r = Some WHEEL)
  ∧ (joystick_as_dpad self = true ↔ l = Some BUTTONS ∨ r = Some BUTTONS)
  ∧ (maps_joystick self = maps_joystick (set_purposes other l r)
     ∧ joystick_as_mouse self = joystick_as_mouse (set_purposes other l r)
     ∧ joystick_as_dpad self = joystick_as_dpad (set_purposes other l r))
  ∧ (left_purpose (__init__ m) = mapping_get m "gamepad.joystick.left_purpose"
     ∧ right_purpose (__init__ m) = mapping_get m "gamepad.joystick.right_purpose")
  ∧ length (list_prod all_purposes all_purposes) = 16%nat
  ∧ Forall (λ '(l, r),
       let self := set_purposes other (Some l) (Some r) in
       maps_joystick self = negb (bool_decide (l = NONE ∧ r = NONE))
       ∧ joystick_as_mouse self =
           bool_decide (l = MOUSE ∨ r = MOUSE ∨ l = WHEEL ∨ r = WHEEL)
       ∧ joystick_as_dpad self = bool_decide (l = BUTTONS ∨ r = BUTTONS))
     (list_prod all_purposes all_purposes).
Proof.
  intros l r. subst l r. split; [|split; [|split; [|split; [|split; [|split]]]]].
  - unfold maps_joystick. rewrite negb_false_iff, bool_decide_eq_true.
    split; [by intros [= -> ->]|by intros [-> ->]].
  - unfold joystick_as_mouse.
    rewrite orb_true_iff, !bool_decide_eq_true, !elem_of_cons, !elem_of_nil.
    intuition congruence.
  - unfold joystick_as_dpad.
    rewrite bool_decide_eq_true, !elem_of_cons, !elem_of_nil.
    intuition congruence.
  - done.
  - apply init_purposes.
  - reflexivity.
  - repeat constructor.
Qed.

(** C6. [writes_keys] returns true exactly when both tables are there and
    neither is empty; with both tables assigned it returns the conjunction;
    with an empty macro table, or an empty direct table, it returns false
    whatever the other table holds. *)
Theorem writes_keys_spec (self : Ctx)
    (m : gmap (list Event) (Macro * string)) (k : gmap (list Event) (Z * string)) :
  (writes_keys self = Ok true ↔
     ∃ m' k', macros self = Some m' ∧ key_to_code self = Some k'
              ∧ m' ≠ ∅ ∧ k' ≠ ∅)
  ∧ writes_keys (set_key_to_code (set_macros self m) k)
      = Ok (bool_decide (m ≠ ∅) && bool_decide (k ≠ ∅))
  ∧ writes_keys (set_key_to_code (set_macros self ∅) k) = Ok false
  ∧ writes_keys (set_key_to_code (set_macros self m) ∅) = Ok false.
Proof.
  assert (Hgen : ∀ m k, writes_keys (set_key_to_code (set_macros self m) k)
                        = Ok (bool_decide (m ≠ ∅) && bool_decide (k ≠ ∅))).
  { intros m0 k0. unfold writes_keys; simpl.
    rewrite (bool_decide_ext _ _ (size_pos_non_empty m0)).
    rewrite (bool_decide_ext _ _ (size_pos_non_empty k0)).
    by destruct (bool_decide (m0 ≠ ∅)). }
  split; [|split; [|split]].
  - unfold writes_keys. destruct (macros self) as [m'|]; simpl.
    2: { split; [done|]. by intros (? & ? & ? & _). }
    case_bool_decide as Hm; simpl.
    + destruct (key_to_code self) as [k'|]; simpl.
      2: { split; [done|]. by intros (? & ? & _ & ? & _). }
      split.
      * intros [= Hk%bool_decide_eq_true]. exists m', k'.
        by rewrite <- !size_pos_non_empty.
      * intros (? & ? & [= <-] & [= <-] & _ & Hk%size_pos_non_empty).
        by rewrite bool_decide_eq_true_2.
    + split; [done|]. intros (? & ? & [= <-] & _ & Hne%size_pos_non_empty & _).
      done.
  - apply Hgen.
  - rewrite Hgen. by rewrite bool_decide_eq_false_2 by (by intros []).
  - rewrite Hgen. rewrite (bool_decide_eq_false_2 (∅ ≠ ∅)) by (by intros []).
    apply f_equal, andb_false_r.
Qed.

(** C4. Construction leaves [macros] and [key_to_code] unassigned, so on a
    constructed context [is_mapped] and [writes_keys] raise an
    [AttributeError] and return no boolean. *)
Theorem init_leaves_tables_unassigned (m : Mapping) (key : list Event) (b : bool) :
  macros (__init__ m) = None
  ∧ key_to_code (__init__ m) = None
  ∧ is_mapped (__init__ m) key = Raise (AttributeError "Context" "macros")
  ∧ writes_keys (__init__ m) = Raise (AttributeError "Context" "macros")
  ∧ is_mapped (__init__ m) key ≠ Ok b
  ∧ writes_keys (__init__ m) ≠ Ok b.
Proof. repeat split; done. Qed.

End QueryFacts.

(** ** The callback registry *)

Section RegistryFacts.

Context {Macro Handler Callback : Type}.
Context {collaborators : Collaborators Macro Handler Callback}.

Local Abbreviation Ctx := (Context Macro Handler Callback).

Lemma append_notify_lookup (k d : Z * Z) (hl : list Handler)
    (c : gmap (Z * Z) (list Callback)) :
  foldl (λ c h, alter (λ l, l ++ [notify h]) k c) c hl !! d =
  if decide (k = d) then (λ l, l ++ (notify <$> hl)) <$> c !! k else c !! d.
Proof.
  revert c. induction hl as [|h hl IH]; intros c; simpl.
  - case_decide as Hd; [subst d|done].
    destruct (c !! k); simpl; by rewrite ?app_nil_r.
  - rewrite IH. case_decide as Hd.
    + rewrite lookup_alter_eq. destruct (c !! k); simpl; [|done].
      by rewrite <- app_assoc.
    + by rewrite lookup_alter_ne.
Qed.

(** One iteration of the loop: the list under [key[:2]] is replaced by the
    callbacks of this key's handlers; the other entries are kept. *)
Lemma register_handlers_lookup (c : gmap (Z * Z) (list Callback))
    (key : Event) (hl : list Handler) (d : Z * Z) :
  register_handlers c (key, hl) !! d =
  if decide (slice2 key = d) then Some (notify <$> hl) else c !! d.
Proof.
  unfold register_handlers. rewrite append_notify_lookup.
  case_decide as Hd.
  - by rewrite lookup_insert_eq.
  - by rewrite lookup_insert_ne.
Qed.

(** After the loop, the list under a dispatch key holds the callbacks of
    the last handler key, in iteration order, that has this dispatch key. *)
Lemma update_callbacks_lookup (self : Ctx) (d : Z * Z) :
  callbacks (update_callbacks self) !! d =
  match last (filter (λ item, slice2 item.1 = d) (_handlers self)) with
  | Some item => Some (notify <$> item.2)
  | None => callbacks self !! d
  end.
Proof.
  unfold update_callbacks; simpl.
  induction (_handlers self) as [|[key hl] hs IH] using rev_ind; [done|].
  rewrite foldl_app, filter_app. cbn [foldl].
  rewrite register_handlers_lookup, filter_cons, filter_nil. cbn [fst snd].
  case_decide as Hd.
  - by rewrite last_snoc.
  - by rewrite app_nil_r.
Qed.

(** Where no two handler keys share their [(type, code)], every dispatch key
    holds the callbacks of the handlers registered for it. *)
Lemma update_callbacks_distinct (self : Ctx) (key : Event) (hl : list Handler) :
  NoDup ((λ item, slice2 item.1) <$> _handlers self) →
  (key, hl) ∈ _handlers self →
  callbacks (update_callbacks self) !! slice2 key = Some (notify <$> hl).
Proof.
  rewrite update_callbacks_lookup.
  induction (_handlers self) as [|[key' hl'] hs IH] using rev_ind.
  { by intros _ ?%elem_of_nil. }
  rewrite fmap_app, filter_app, filter_cons, filter_nil; simpl.
  intros [Hhs [Hdisj _]]%NoDup_app.
  rewrite elem_of_app, list_elem_of_singleton.
  case_decide as Hd.
  - rewrite last_snoc. intros [Hin|[= <- <-]]; [|done].
    exfalso. apply (Hdisj (slice2 key)).
    + apply list_elem_of_fmap. by exists (key, hl).
    + rewrite Hd. apply list_elem_of_here.
  - rewrite app_nil_r. intros [Hin|[= -> ->]]; [by apply IH|done].
Qed.

End RegistryFacts.

(** C3. With a handler for the press and a handler for the release of one
    physical key, both are filed under the same [(type, code)], but the list
    found there after construction holds the callback of the second handler
    only: the first was dropped when the list was reset. *)
Theorem update_callbacks_drops_earlier_key :
  let self := __init__ Example.direct_mapping in
  _handlers self =
    [((1, 30, 1), ["on_press"]); ((1, 30, 0), ["on_release"])]
  ∧ slice2 (1, 30, 1) = (1, 30) ∧ slice2 (1, 30, 0) = (1, 30)
  ∧ callbacks self !! (1, 30) = Some ["on_release.notify"]
  ∧ callbacks self !! (1, 30) ≠ Some ["on_press.notify"; "on_release.notify"].
Proof.
  intros self.
  assert (H : callbacks self !! (1, 30) = Some ["on_release.notify"]).
  { subst self. unfold __init__. rewrite update_callbacks_lookup. reflexivity. }
  split; [reflexivity|]. split; [reflexivity|]. split; [reflexivity|].
  split; [exact H|]. rewrite H. discriminate.
Qed.

(** ** The resolution tables *)

Section BuilderFacts.

Context {Macro Handler Callback : Type}.
Context {collaborators : Collaborators Macro Handler Callback}.

Local Abbreviation Ctx := (Context Macro Handler Callback).

Lemma for_each_value_ext {A S : Type} (xs : list A) (s : S)
    (body1 body2 : S → A → Logged S) :
  (∀ s x, value (body1 s x) = value (body2 s x)) →
  value (for_each xs s body1) = value (for_each xs s body2).
Proof.
  intros Hext. revert s. induction xs as [|x xs IH]; intros s; [done|].
  cbn [for_each]. rewrite !value_bind, Hext. apply IH.
Qed.

Lemma for_each_logs_nil {A S : Type} (xs : list A) (s : S) (body : S → A → Logged S) :
  (∀ s x, logs (body s x) = []) → logs (for_each xs s body) = [].
Proof.
  intros Hnil. revert s. induction xs as [|x xs IH]; intros s; [done|].
  cbn [for_each]. by rewrite logs_bind, Hnil, IH.
Qed.

Lemma foldl_insert_lookup {V : Type} (ps : list Key) (v : V)
    (t : gmap (list Event) V) (k : list Event) :
  foldl (λ t p, <[keys p := v]> t) t ps !! k =
  if decide (k ∈ keys <$> ps) then Some v else t !! k.
Proof.
  revert t. induction ps as [|p ps IH]; intros t; cbn [foldl].
  - rewrite decide_False; [done|]. rewrite fmap_nil. apply not_elem_of_nil.
  - rewrite IH. rewrite fmap_cons.
    destruct (decide (k ∈ keys <$> ps)) as [Hin|Hin].
    + rewrite decide_True; [done|]. by apply list_elem_of_further.
    + destruct (decide (k = keys p)) as [->|Hne].
      * rewrite decide_True by apply list_elem_of_here. apply lookup_insert_eq.
      * rewrite decide_False by (rewrite elem_of_cons; tauto).
        by apply lookup_insert_ne.
Qed.

Lemma insert_permutations_lookup {V : Type} (t : gmap (list Event) V)
    (key : Key) (v : V) (k : list Event) :
  insert_permutations t key v !! k =
  if decide (k ∈ keys <$> get_permutations key) then Some v else t !! k.
Proof. apply foldl_insert_lookup. Qed.

(** *** One entry of [_parse_macros] *)

(** One entry logs what the compiler logs for it, and nothing else. *)
Lemma parse_macros_entry_logs (self : Ctx) t entry :
  logs (parse_macros_entry self t entry) =
  if is_this_a_macro entry.2.1 then logs (parse entry.2.1 self) else [].
Proof.
  destruct entry as [key output]. unfold parse_macros_entry. cbn [fst snd].
  destruct (is_this_a_macro output.1); [|done].
  rewrite logs_bind. destruct (value (parse output.1 self)).
  - rewrite for_each_silent. simpl. by rewrite app_nil_r.
  - simpl. by rewrite app_nil_r.
Qed.

Lemma parse_macros_entry_value (self : Ctx) t key output :
  value (parse_macros_entry self t (key, output)) =
  if is_this_a_macro output.1 then
    match value (parse output.1 self) with
    | Some macro => insert_permutations t key (macro, output.2)
    | None => t
    end
  else t.
Proof.
  unfold parse_macros_entry. destruct (is_this_a_macro output.1); [|done].
  rewrite value_bind. destruct (value (parse output.1 self)); [|done].
  by rewrite for_each_silent.
Qed.

Lemma parse_macros_loop_logs (self : Ctx) entries t :
  logs (for_each entries t (parse_macros_entry self)) = compiler_logs self entries.
Proof.
  revert t. induction entries as [|entry es IH]; intros t; [done|].
  cbn [for_each]. rewrite logs_bind, IH, parse_macros_entry_logs. done.
Qed.

(** *** One entry of [_map_keys_to_codes] *)

(** The error that the inner loop logs for one permutation. *)
Lemma checked_loop (ps : list Key) (v : Z * string) (t : gmap (list Event) (Z * string)) :
  for_each ps t (λ key_to_code permutation,
    (if bool_decide (last_value permutation ∉ [-1; 1])
     then logger_error unexpected_value_msg [ArgKeys (keys permutation)]
     else mret ());;
    mret (<[keys permutation := v]> key_to_code))
  = mkLogged (foldl (λ t p, <[keys p := v]> t) t ps)
      (ps ≫= λ p, if bool_decide (last_value p ∉ [-1; 1])
                   then [mkLog ERROR unexpected_value_msg [ArgKeys (keys p)]]
                   else []).
Proof.
  revert t. induction ps as [|p ps IH]; intros t; [done|].
  cbn [for_each]. unfold mbind at 1, Logged_bind at 1. rewrite IH. csimpl.
  case_bool_decide; simpl; by rewrite ?app_nil_r.
Qed.

Lemma map_keys_entry_resolved t key output code :
  is_this_a_macro output.1 = false →
  system_mapping_get output.1 = Some code →
  map_keys_entry t (key, output)
  = mkLogged (insert_permutations t key (code, output.2))
      (get_permutations key ≫= λ p,
         if bool_decide (last_value p ∉ [-1; 1])
         then [mkLog ERROR unexpected_value_msg [ArgKeys (keys p)]]
         else []).
Proof.
  intros Hmacro Hsym. unfold map_keys_entry. rewrite Hmacro, Hsym.
  apply checked_loop.
Qed.

Lemma map_keys_entry_unknown t key output :
  is_this_a_macro output.1 = false →
  system_mapping_get output.1 = None →
  map_keys_entry t (key, output)
  = mkLogged t [mkLog ERROR unknown_symbol_msg [ArgStr output.1]].
Proof.
  intros Hmacro Hsym. unfold map_keys_entry. by rewrite Hmacro, Hsym.
Qed.

Lemma map_keys_entry_value t key output :
  value (map_keys_entry t (key, output)) =
  if is_this_a_macro output.1 then t
  else match system_mapping_get output.1 with
       | Some target_code => insert_permutations t key (target_code, output.2)
       | None => t
       end.
Proof.
  simpl. destruct (is_this_a_macro output.1); [done|].
  destruct (system_mapping_get output.1); [|done].
  by rewrite checked_loop.
Qed.

Lemma map_keys_entry_unchecked_value t entry :
  value (map_keys_entry_unchecked t entry) = value (map_keys_entry t entry).
Proof.
  destruct entry as [key output]. rewrite map_keys_entry_value. simpl.
  destruct (is_this_a_macro output.1); [done|].
  destruct (system_mapping_get output.1); [|done].
  by rewrite for_each_silent.
Qed.

(** *** The loops over the mapping *)

Lemma parse_macros_value (self : Ctx) :
  value (_parse_macros self) =
  value (for_each (mapping_iter (mapping self)) ∅ (parse_macros_entry self)).
Proof. reflexivity. Qed.

(** What [_parse_macros] logs: the line before the loop, what the compiler
    logs during the loop, and the line after it when the table came out
    empty. *)
Lemma parse_macros_logs (self : Ctx) :
  logs (_parse_macros self) =
  mkLog DEBUG "Parsing macros" [] ::
  compiler_logs self (mapping_iter (mapping self)) ++
  (if bool_decide (size (value (_parse_macros self)) = 0%nat)
   then [mkLog DEBUG "No macros configured" []] else []).
Proof.
  rewrite parse_macros_value. unfold _parse_macros.
  rewrite !logs_bind, ?value_bind, parse_macros_loop_logs.
  case_bool_decide; simpl; by rewrite ?app_nil_r.
Qed.

Lemma parse_macros_loop_is_Some (self : Ctx) entries t (k : list Event) :
  is_Some (value (for_each entries t (parse_macros_entry self)) !! k) ↔
  is_Some (t !! k) ∨
  ∃ key output, (key, output) ∈ entries ∧ is_this_a_macro output.1 = true
    ∧ is_Some (value (parse output.1 self))
    ∧ k ∈ keys <$> get_permutations key.
Proof.
  revert t. induction entries as [|[key output] es IH]; intros t; cbn [for_each].
  - split; [auto|]. intros [?|(? & ? & Hin & _)]; [done|].
    by apply elem_of_nil in Hin.
  - rewrite value_bind, IH, parse_macros_entry_value. split.
    + intros [Hk|(key' & output' & Hin & ?)].
      * destruct (is_this_a_macro output.1) eqn:Hm; [|by left].
        destruct (value (parse output.1 self)) as [macro|] eqn:Hp; [|by left].
        rewrite insert_permutations_lookup in Hk.
        case_decide as Hperm; [|by left].
        right. exists key, output. rewrite Hp. split_and!; eauto.
        apply list_elem_of_here.
      * right. exists key', output'. split; [by apply list_elem_of_further|done].
    + intros [Hk|(key' & output' & Hin & Hm & Hp & Hperm)].
      * left. destruct (is_this_a_macro output.1); [|done].
        destruct (value (parse output.1 self)); [|done].
        rewrite insert_permutations_lookup. by case_decide.
      * apply elem_of_cons in Hin as [[= -> ->]|Hin].
        -- left. rewrite Hm. destruct Hp as [macro ->].
           rewrite insert_permutations_lookup. by rewrite decide_True.
        -- right. by exists key', output'.
Qed.

Lemma map_keys_loop_is_Some entries t (k : list Event) :
  is_Some (value (for_each entries t map_keys_entry) !! k) ↔
  is_Some (t !! k) ∨
  ∃ key output, (key, output) ∈ entries ∧ is_this_a_macro output.1 = false
    ∧ is_Some (system_mapping_get output.1) ∧ k ∈ keys <$> get_permutations key.
Proof.
  revert t. induction entries as [|[key output] es IH]; intros t; cbn [for_each].
  - split; [auto|]. intros [?|(? & ? & Hin & _)]; [done|].
    by apply elem_of_nil in Hin.
  - rewrite value_bind, IH, map_keys_entry_value. split.
    + intros [Hk|(key' & output' & Hin & ?)].
      * destruct (is_this_a_macro output.1) eqn:Hm; [by left|].
        destruct (system_mapping_get output.1) as [code|] eqn:Hp; [|by left].
        rewrite insert_permutations_lookup in Hk.
        case_decide as Hperm; [|by left].
        right. exists key, output. rewrite Hp. split_and!; eauto.
        apply list_elem_of_here.
      * right. exists key', output'. split; [by apply list_elem_of_further|done].
    + intros [Hk|(key' & output' & Hin & Hm & Hp & Hperm)].
      * left. destruct (is_this_a_macro output.1); [done|].
        destruct (system_mapping_get output.1); [|done].
        rewrite insert_permutations_lookup. by case_decide.
      * apply elem_of_cons in Hin as [[= -> ->]|Hin].
        -- left. rewrite Hm. destruct Hp as [code ->].
           rewrite insert_permutations_lookup. by rewrite decide_True.
        -- right. by exists key', output'.
Qed.

(** Entries that bind no permutation equal to [k] leave the table at [k] as
    it was. *)
Lemma map_keys_loop_lookup_fresh entries t (k : list Event) :
  (∀ key output, (key, output) ∈ entries → k ∉ keys <$> get_permutations key) →
  value (for_each entries t map_keys_entry) !! k = t !! k.
Proof.
  revert t. induction entries as [|[key output] es IH]; intros t Hfresh; [done|].
  cbn [for_each]. rewrite value_bind, IH.
  - rewrite map_keys_entry_value.
    destruct (is_this_a_macro output.1); [done|].
    destruct (system_mapping_get output.1); [|done].
    rewrite insert_permutations_lookup, decide_False; [done|].
    apply (Hfresh key output), list_elem_of_here.
  - intros key' output' Hin. apply (Hfresh key' output').
    by apply list_elem_of_further.
Qed.

End BuilderFacts.

Lemma same_binding_sym (k1 k2 : Key) : same_binding k1 k2 → same_binding k2 k1.
Proof. intros [Hm Ht]. split; by symmetry. Qed.

Lemma same_binding_trans (k1 k2 k3 : Key) :
  same_binding k1 k2 → same_binding k2 k3 → same_binding k1 k3.
Proof. intros [Hm1 Ht1] [Hm2 Ht2]. split; [by rewrite Hm1|congruence]. Qed.

(** Two keys that share one permuted chord are the same binding. *)
Lemma shared_permutation (k1 k2 : Key) (chord : list Event) :
  chord ∈ keys <$> get_permutations k1 →
  chord ∈ keys <$> get_permutations k2 →
  same_binding k1 k2.
Proof.
  intros (p1 & -> & Hp1)%list_elem_of_fmap (p2 & Heq & Hp2)%list_elem_of_fmap.
  apply keys_inj in Heq as ->.
  apply elem_of_get_permutations in Hp1, Hp2.
  eauto using same_binding_trans, same_binding_sym.
Qed.

Section TableClaims.

Context {Macro Handler Callback : Type}.
Context {collaborators : Collaborators Macro Handler Callback}.

Local Abbreviation Ctx := (Context Macro Handler Callback).

(** C8. An entry that is no macro and whose symbol the symbol table does
    not know leaves the direct table as if the entry were not in the mapping,
    and the log is the log of the mapping without the entry with one error
    record, naming the symbol, at the entry's place: the entries before and
    after it are built as usual. *)
Theorem unknown_symbol_is_skipped (self without : Ctx)
    (pre post : list (Key * Output)) (key : Key) (sym tgt : string) :
  mapping_iter (mapping self) = pre ++ (key, (sym, tgt)) :: post →
  mapping_iter (mapping without) = pre ++ post →
  is_this_a_macro sym = false →
  system_mapping_get sym = None →
  value (_map_keys_to_codes self) = value (_map_keys_to_codes without)
  ∧ ∃ before after,
      before = logs (for_each pre ∅ map_keys_entry)
      ∧ logs (_map_keys_to_codes self)
          = before ++ mkLog ERROR unknown_symbol_msg [ArgStr sym] :: after
      ∧ logs (_map_keys_to_codes without) = before ++ after.
Proof.
  intros Hself Hwithout Hmacro Hsym. unfold _map_keys_to_codes.
  rewrite Hself, Hwithout, !for_each_app. cbn [for_each].
  set (built := for_each pre ∅ map_keys_entry).
  assert (Hentry : map_keys_entry (value built) (key, (sym, tgt))
                   = mkLogged (value built)
                       [mkLog ERROR unknown_symbol_msg [ArgStr sym]]).
  { by apply map_keys_entry_unknown. }
  split.
  - by rewrite !value_bind, Hentry.
  - exists (logs built), (logs (for_each post (value built) map_keys_entry)).
    split; [done|]. by rewrite !logs_bind, ?value_bind, Hentry.
Qed.

(** C9. An entry that resolves to a key code and whose trigger (last)
    triple has a value other than -1 and 1: for each of its permutations an
    error naming the permuted chord is logged and the permutation is in the
    direct table all the same, bound to the resolved output unless a later
    entry of the same binding writes over it; and the table is the one that
    the builder without the check returns. *)
Theorem unexpected_value_is_logged_and_inserted (self : Ctx)
    (pre post : list (Key * Output)) (key : Key) (sym tgt : string) (code : Z) :
  mapping_iter (mapping self) = pre ++ (key, (sym, tgt)) :: post →
  is_this_a_macro sym = false →
  system_mapping_get sym = Some code →
  last_value key ∉ [-1; 1] →
  value (_map_keys_to_codes self) = value (map_keys_to_codes_unchecked self)
  ∧ ∀ p, p ∈ get_permutations key →
      mkLog ERROR unexpected_value_msg [ArgKeys (keys p)]
        ∈ logs (_map_keys_to_codes self)
      ∧ is_Some (value (_map_keys_to_codes self) !! keys p)
      ∧ ((∀ key' output', (key', output') ∈ post → ¬ same_binding key key') →
         value (_map_keys_to_codes self) !! keys p = Some (code, tgt)).
Proof.
  intros Hself Hmacro Hsym Hvalue. split.
  { unfold _map_keys_to_codes, map_keys_to_codes_unchecked.
    apply for_each_value_ext. intros t entry.
    by rewrite map_keys_entry_unchecked_value. }
  intros p Hp. unfold _map_keys_to_codes. rewrite Hself.
  assert (Hchord : keys p ∈ keys <$> get_permutations key).
  { apply list_elem_of_fmap. by exists p. }
  split; [|split].
  - rewrite for_each_app. cbn [for_each]. rewrite !logs_bind, ?value_bind.
    apply elem_of_app. right. apply elem_of_app. left.
    rewrite (map_keys_entry_resolved _ _ _ code) by done. simpl.
    apply list_elem_of_bind. exists p. split; [|done].
    assert (last_value p = last_value key) as ->.
    { apply elem_of_get_permutations in Hp as [_ Ht].
      unfold last_value. by rewrite Ht. }
    rewrite bool_decide_eq_true_2 by done. apply list_elem_of_here.
  - apply map_keys_loop_is_Some. right. exists key, (sym, tgt).
    split_and!; [|done|by exists code|done].
    apply elem_of_app. right. apply list_elem_of_here.
  - intros Hpost. rewrite for_each_app. cbn [for_each].
    rewrite !value_bind, map_keys_loop_lookup_fresh.
    + rewrite (map_keys_entry_resolved _ _ _ code) by done. simpl.
      rewrite insert_permutations_lookup. by rewrite decide_True.
    + intros key' output' Hin Hshared. apply (Hpost key' output' Hin).
      by apply (shared_permutation _ _ (keys p)).
Qed.

(** The compiler's records for a mapping are those for its parts, in
    order. *)
Lemma compiler_logs_app (self : Ctx) (pre post : list (Key * Output)) :
  compiler_logs self (pre ++ post)
  = compiler_logs self pre ++ compiler_logs self post.
Proof. unfold compiler_logs. apply bind_app. Qed.

Lemma compiler_logs_cons (self : Ctx) (entry : Key * Output)
    (post : list (Key * Output)) :
  compiler_logs self (entry :: post)
  = (if is_this_a_macro entry.2.1 then logs (parse entry.2.1 self) else [])
    ++ compiler_logs self post.
Proof. reflexivity. Qed.

(** C10. An entry that is classified as a macro and whose compilation
    yields no program leaves the macro table as if the entry were not in the
    mapping, and building goes on with the entries after it.  With a compiler
    that records a diagnostic when it yields no program, that diagnostic is
    in the log at the entry's place, between what was logged for the entries
    before and after it; [_parse_macros] adds the line written before the
    loop and, exactly when the table came out empty, the line about an empty
    table, which is at debug level and no error. *)
Theorem uncompiled_macro_is_omitted (self : Ctx)
    (pre post : list (Key * Output)) (key : Key) (sym tgt : string) :
  mapping_iter (mapping self) = pre ++ (key, (sym, tgt)) :: post →
  is_this_a_macro sym = true →
  value (parse sym self) = None →
  records_failures self →
  let built := _parse_macros self in
  value built = value (for_each (pre ++ post) ∅ (parse_macros_entry self))
  ∧ logs (parse sym self) ≠ []
  ∧ logs built =
      mkLog DEBUG "Parsing macros" [] ::
      compiler_logs self pre ++ logs (parse sym self) ++ compiler_logs self post
      ++ (if bool_decide (size (value built) = 0%nat)
          then [mkLog DEBUG "No macros configured" []] else [])
  ∧ (∀ r, r ∈ logs built →
       log_level r = DEBUG ∨ r ∈ compiler_logs self (mapping_iter (mapping self)))
  ∧ (size (value built) = 0%nat →
     mkLog DEBUG "No macros configured" [] ∈ logs built).
Proof.
  intros Hself Hmacro Hparse Hrecords built. subst built.
  split; [|split; [|split; [|split]]].
  - rewrite parse_macros_value, Hself, !for_each_app. cbn [for_each].
    rewrite !value_bind. f_equal.
    rewrite parse_macros_entry_value. simpl. by rewrite Hmacro, Hparse.
  - by apply Hrecords.
  - rewrite parse_macros_logs, Hself, compiler_logs_app, compiler_logs_cons.
    cbn [fst snd]. rewrite Hmacro. by rewrite <- !app_assoc.
  - intros r. rewrite parse_macros_logs.
    rewrite elem_of_cons, elem_of_app. intros [->|[Hr|Hr]]; [by left|by right|].
    left. case_bool_decide.
    + by apply list_elem_of_singleton in Hr as ->.
    + by apply elem_of_nil in Hr.
  - intros Hsize. rewrite parse_macros_logs.
    rewrite bool_decide_eq_true_2 by done.
    apply list_elem_of_further, elem_of_app. right. apply list_elem_of_here.
Qed.

Lemma with_tables_is_mapped_eq (self : Ctx) (chord : list Event) :
  is_mapped (with_tables self) chord =
  Ok (bool_decide (is_Some (value (_parse_macros self) !! chord))
      || bool_decide (is_Some (value (_map_keys_to_codes self) !! chord))).
Proof. unfold is_mapped, with_tables. simpl. by case_bool_decide. Qed.

Lemma with_tables_is_mapped_true (self : Ctx) (chord : list Event) :
  is_mapped (with_tables self) chord = Ok true ↔
  ∃ key output, (key, output) ∈ mapping_iter (mapping self)
    ∧ resolves self output ∧ chord ∈ keys <$> get_permutations key.
Proof.
  rewrite with_tables_is_mapped_eq.
  transitivity
    (bool_decide (is_Some (value (_parse_macros self) !! chord))
     || bool_decide (is_Some (value (_map_keys_to_codes self) !! chord)) = true).
  { split; [by intros [= H]|by intros ->]. }
  rewrite orb_true_iff, !bool_decide_eq_true.
  rewrite parse_macros_value. unfold _map_keys_to_codes.
  rewrite parse_macros_loop_is_Some, map_keys_loop_is_Some.
  rewrite !lookup_empty. unfold resolves. split.
  - intros [[[? [=]]|(key & output & Hin & Hm & Hp & Hperm)]
           |[[? [=]]|(key & output & Hin & Hm & Hp & Hperm)]];
      exists key, output; by rewrite Hm.
  - intros (key & output & Hin & Hres & Hperm).
    destruct (is_this_a_macro output.1) eqn:Hm.
    + left. right. by exists key, output.
    + right. right. by exists key, output.
Qed.

(** C1. On the context whose tables are the ones the builders return,
    [is_mapped] always returns a boolean, and it returns true exactly for
    the permutations of the chords of those entries whose output resolves.
    So it is true for the chord of every resolved entry and for each of its
    permutations, and false for a chord that is no permutation of a chord of
    the mapping. *)
Theorem is_mapped_with_tables (self : Ctx) (chord : list Event) :
  let session := with_tables self in
  (∃ b, is_mapped session chord = Ok b
        ∧ (b = true ↔
           ∃ key output, (key, output) ∈ mapping_iter (mapping self)
             ∧ resolves self output ∧ chord ∈ keys <$> get_permutations key))
  ∧ (∀ key output, (key, output) ∈ mapping_iter (mapping self) →
       resolves self output →
       is_mapped session (keys key) = Ok true
       ∧ ∀ p, p ∈ get_permutations key → is_mapped session (keys p) = Ok true)
  ∧ ((∀ key output, (key, output) ∈ mapping_iter (mapping self) →
        chord ∉ keys <$> get_permutations key) →
     is_mapped session chord = Ok false).
Proof.
  intros session. subst session. split; [|split].
  - eexists. split; [apply with_tables_is_mapped_eq|].
    rewrite <- with_tables_is_mapped_true, with_tables_is_mapped_eq.
    split; [by intros ->|by intros [= H]].
  - intros key output Hin Hres.
    assert (Hall : ∀ p, p ∈ get_permutations key →
                        is_mapped (with_tables self) (keys p) = Ok true).
    { intros p Hp. apply with_tables_is_mapped_true.
      exists key, output. split_and!; [done..|].
      apply list_elem_of_fmap. by exists p. }
    split; [|done]. apply Hall, elem_of_get_permutations. by split.
  - intros Hnone.
    destruct (is_mapped (with_tables self) chord) as [[]|] eqn:Hres;
      [|done|by rewrite with_tables_is_mapped_eq in Hres].
    apply with_tables_is_mapped_true in Hres
      as (key & output & Hin & _ & Hperm).
    by destruct (Hnone key output Hin).
Qed.

(** C5. In a mapping where entries of the same binding are classified
    alike by [is_this_a_macro], no chord is a key of both tables: the chords
    of the macro table come from entries that pass the check, those of the
    direct table from entries that fail it. *)
Theorem tables_are_disjoint (self : Ctx) :
  (∀ k1 o1 k2 o2,
     (k1, o1) ∈ mapping_iter (mapping self) →
     (k2, o2) ∈ mapping_iter (mapping self) →
     same_binding k1 k2 → is_this_a_macro o1.1 = is_this_a_macro o2.1) →
  let macros := value (_parse_macros self) in
  let key_to_code := value (_map_keys_to_codes self) in
  (∀ chord, is_Some (macros !! chord) →
     ∃ key output, (key, output) ∈ mapping_iter (mapping self)
       ∧ is_this_a_macro output.1 = true
       ∧ chord ∈ keys <$> get_permutations key)
  ∧ (∀ chord, is_Some (key_to_code !! chord) →
     ∃ key output, (key, output) ∈ mapping_iter (mapping self)
       ∧ is_this_a_macro output.1 = false
       ∧ chord ∈ keys <$> get_permutations key)
  ∧ (∀ chord, ¬ (is_Some (macros !! chord) ∧ is_Some (key_to_code !! chord)))
  ∧ dom macros ## dom key_to_code.
Proof.
  intros Halike macros key_to_code. subst macros key_to_code.
  assert (Hm : ∀ chord, is_Some (value (_parse_macros self) !! chord) →
     ∃ key output, (key, output) ∈ mapping_iter (mapping self)
       ∧ is_this_a_macro output.1 = true
       ∧ chord ∈ keys <$> get_permutations key).
  { intros chord. rewrite parse_macros_value, parse_macros_loop_is_Some.
    rewrite lookup_empty. intros [[? [=]]|(key & output & ? & ? & _ & ?)].
    by exists key, output. }
  assert (Hk : ∀ chord, is_Some (value (_map_keys_to_codes self) !! chord) →
     ∃ key output, (key, output) ∈ mapping_iter (mapping self)
       ∧ is_this_a_macro output.1 = false
       ∧ chord ∈ keys <$> get_permutations key).
  { intros chord. unfold _map_keys_to_codes. rewrite map_keys_loop_is_Some.
    rewrite lookup_empty. intros [[? [=]]|(key & output & ? & ? & _ & ?)].
    by exists key, output. }
  assert (Hboth : ∀ chord, ¬ (is_Some (value (_parse_macros self) !! chord)
                     ∧ is_Some (value (_map_keys_to_codes self) !! chord))).
  { intros chord [(k1 & o1 & Hin1 & Hm1 & Hp1)%Hm (k2 & o2 & Hin2 & Hm2 & Hp2)%Hk].
    pose proof (Halike k1 o1 k2 o2 Hin1 Hin2
                  (shared_permutation _ _ _ Hp1 Hp2)) as Heq.
    congruence. }
  split_and!; [done..|].
  apply elem_of_disjoint. intros chord ?%elem_of_dom ?%elem_of_dom.
  by apply (Hboth chord).
Qed.

End TableClaims.

(** ** The concrete session *)

(** C8 on the mapping with an unknown name between two known ones. *)
Lemma unknown_symbol_is_skipped_witness :
  let self := __init__ Example.partly_unknown_mapping in
  let without := __init__ Example.known_part_mapping in
  value (_map_keys_to_codes self) = value (_map_keys_to_codes without)
  ∧ ∃ before after,
      before = logs (for_each
                 [(mkKey [Example.shift; Example.ctrl] Example.a_down,
                   ("b", "keyboard"))] ∅ map_keys_entry)
      ∧ logs (_map_keys_to_codes self)
          = before ++ mkLog ERROR unknown_symbol_msg [ArgStr "nonexistent"] :: after
      ∧ logs (_map_keys_to_codes without) = before ++ after.
Proof.
  exact (unknown_symbol_is_skipped
           (__init__ Example.partly_unknown_mapping)
           (__init__ Example.known_part_mapping)
           [(mkKey [Example.shift; Example.ctrl] Example.a_down, ("b", "keyboard"))]
           [(mkKey [] Example.shift, ("a", "keyboard"))]
           (mkKey [] Example.a_down) "nonexistent" "keyboard"
           eq_refl eq_refl eq_refl eq_refl).
Defined.

Lemma zero_not_digital : (0 : Z) ∉ [-1; 1].
Proof.
  intros H. apply elem_of_cons in H as [H|H]; [discriminate H|].
  apply elem_of_cons in H as [H|H]; [discriminate H|].
  by apply elem_of_nil in H.
Defined.

(** C9 on the chord whose trigger is the release of [a]. *)
Lemma unexpected_value_is_logged_and_inserted_witness :
  let self := __init__ Example.release_trigger_mapping in
  let chord := [Example.shift; (1, 30, 0)] in
  value (_map_keys_to_codes self) = value (map_keys_to_codes_unchecked self)
  ∧ mkLog ERROR unexpected_value_msg [ArgKeys chord]
      ∈ logs (_map_keys_to_codes self)
  ∧ value (_map_keys_to_codes self) !! chord = Some (30, "keyboard").
Proof.
  intros self chord.
  destruct (unexpected_value_is_logged_and_inserted
              (collaborators := Example.collaborators) self [] []
              (mkKey [Example.shift] (1, 30, 0)) "a" "keyboard" 30
              eq_refl eq_refl eq_refl zero_not_digital) as [Htable Hperm].
  destruct (Hperm (mkKey [Example.shift] (1, 30, 0)))
    as (Hlog & _ & Hvalue).
  { apply list_elem_of_here. }
  split; [exact Htable|]. split; [exact Hlog|].
  apply Hvalue. intros key' output' Hin. by apply elem_of_nil in Hin.
Defined.

Lemma example_compiler_records_failures (self : Context string string string) :
  records_failures self.
Proof.
  intros s. simpl. unfold Example.compile. case_bool_decide; [done|].
  intros _. discriminate.
Qed.

(** C10 on the mapping with one macro that compiles and one that does
    not. *)
Lemma uncompiled_macro_is_omitted_witness :
  let self := __init__ Example.macro_mapping in
  let built := _parse_macros self in
  value built
    = value (for_each [(mkKey [] Example.a_down, ("key(b)", "keyboard"))] ∅
               (parse_macros_entry self))
  ∧ logs (parse "key()" self) ≠ []
  ∧ logs built =
      mkLog DEBUG "Parsing macros" [] ::
      compiler_logs self [(mkKey [] Example.a_down, ("key(b)", "keyboard"))]
      ++ logs (parse "key()" self) ++ compiler_logs self []
      ++ (if bool_decide (size (value built) = 0%nat)
          then [mkLog DEBUG "No macros configured" []] else [])
  ∧ (∀ r, r ∈ logs built →
       log_level r = DEBUG ∨ r ∈ compiler_logs self (mapping_iter (mapping self)))
  ∧ (size (value built) = 0%nat →
     mkLog DEBUG "No macros configured" [] ∈ logs built).
Proof.
  exact (uncompiled_macro_is_omitted (__init__ Example.macro_mapping)
           [(mkKey [] Example.a_down, ("key(b)", "keyboard"))] []
           (mkKey [] Example.shift) "key()" "keyboard"
           eq_refl eq_refl eq_refl
           (example_compiler_records_failures _)).
Defined.

(** C1 on the mapping of [shift + ctrl + a]: the chord with the modifiers
    swapped is mapped. *)
Lemma is_mapped_with_tables_witness :
  is_mapped (Example.session Example.direct_mapping)
    [Example.ctrl; Example.shift; Example.a_down] = Ok true.
Proof.
  destruct (is_mapped_with_tables (collaborators := Example.collaborators)
              (__init__ Example.direct_mapping) [])
    as (_ & Hresolved & _).
  destruct (Hresolved (mkKey [Example.shift; Example.ctrl] Example.a_down)
              ("b", "keyboard")) as [_ Hperm].
  { apply list_elem_of_here. }
  { by exists 48. }
  apply (Hperm (mkKey [Example.ctrl; Example.shift] Example.a_down)).
  apply list_elem_of_further, list_elem_of_here.
Defined.

(** C5 on the mapping with a macro on one key and a key name on another. *)
Lemma tables_are_disjoint_witness :
  let self := __init__ Example.mixed_mapping in
  dom (value (_parse_macros self)) ## dom (value (_map_keys_to_codes self)).
Proof.
  intros self.
  refine (proj2 (proj2 (proj2
            (tables_are_disjoint (collaborators := Example.collaborators) self _)))).
  intros k1 o1 k2 o2 H1 H2 [_ Ht].
  apply elem_of_cons in H1 as [H1|H1]; apply elem_of_cons in H2 as [H2|H2].
  - injection H1 as -> ->. injection H2 as -> ->. reflexivity.
  - apply elem_of_cons in H2 as [H2|H2]; [|by apply elem_of_nil in H2].
    injection H1 as -> ->. injection H2 as -> ->. discriminate Ht.
  - apply elem_of_cons in H1 as [H1|H1]; [|by apply elem_of_nil in H1].
    injection H1 as -> ->. injection H2 as -> ->. discriminate Ht.
  - apply elem_of_cons in H1 as [H1|H1]; [|by apply elem_of_nil in H1].
    apply elem_of_cons in H2 as [H2|H2]; [|by apply elem_of_nil in H2].
    injection H1 as -> ->. injection H2 as -> ->. reflexivity.
Defined.

(** C1 as stated fails: the chord of an entry whose symbol is unknown is
    in the mapping, and [is_mapped] returns false for it. *)
Lemma is_mapped_misses_unknown_symbol :
  let m := Example.unknown_mapping in
  ¬ (∀ key output, (key, output) ∈ mapping_iter m →
       is_mapped (Example.session m) (keys key) = Ok true).
Proof.
  intros m Hall.
  specialize (Hall (mkKey [] Example.a_down) ("nonexistent", "keyboard")
                (list_elem_of_here _ _)).
  vm_compute in Hall. discriminate Hall.
Qed.

(** C5 as stated fails: with the same three keys configured as a macro
    and, the modifiers swapped, as a key, one chord is in both tables. *)
Lemma chord_in_both_tables :
  let self := __init__ Example.twice_mapping in
  let chord := [Example.shift; Example.ctrl; Example.a_down] in
  value (_parse_macros self) !! chord = Some ("key(b)", "keyboard")
  ∧ value (_map_keys_to_codes self) !! chord = Some (30, "keyboard")
  ∧ ¬ (∀ chord, ¬ (is_Some (value (_parse_macros self) !! chord)
                   ∧ is_Some (value (_map_keys_to_codes self) !! chord))).
Proof.
  intros self chord.
  assert (Hm : value (_parse_macros self) !! chord = Some ("key(b)", "keyboard"))
    by (vm_compute; reflexivity).
  assert (Hk : value (_map_keys_to_codes self) !! chord = Some (30, "keyboard"))
    by (vm_compute; reflexivity).
  split; [exact Hm|]. split; [exact Hk|].
  intros Hnone. apply (Hnone chord). rewrite Hm, Hk. split; eauto.
Qed.

(** C9 as stated fails: the check reads the value of the last triple, the
    trigger.  A modifier with the value 5 next to a trigger with the value 1
    is inserted and nothing is logged. *)
Lemma modifier_value_is_not_checked :
  let self := __init__ Example.analog_modifier_mapping in
  let chord := [(3, 0, 5); (1, 30, 1)] in
  mapping_iter (mapping self) = [(mkKey [(3, 0, 5)] (1, 30, 1), ("a", "keyboard"))]
  ∧ value (_map_keys_to_codes self) !! chord = Some (30, "keyboard")
  ∧ logs (_map_keys_to_codes self) = []
  ∧ ¬ (∃ r, r ∈ logs (_map_keys_to_codes self) ∧ log_level r = ERROR).
Proof.
  intros self chord.
  assert (Hlogs : logs (_map_keys_to_codes self) = []) by (vm_compute; reflexivity).
  split; [reflexivity|]. split; [vm_compute; reflexivity|]. split; [exact Hlogs|].
  rewrite Hlogs. intros (r & Hr & _). by apply elem_of_nil in Hr.
Qed.


(** * Properties of the device layer *)

Module LinuxFacts.
Import Linux.

(** ** KeycodeReader *)

(** What one event does to the newest key code. *)
Lemma read_device_fold (dev : VirtualDevice) (newest : option Z) :
  read_device dev newest =
  (foldl (λ newest event,
            if is_key_down event then Some (event_code event + 8) else newest)
         newest dev, []).
Proof. revert newest. induction dev as [|event rest IH]; intros; simpl; auto. Qed.

Lemma read_devices_fold (devs : list VirtualDevice) (newest : option Z) :
  read_devices devs newest =
  (foldl (λ newest event,
            if is_key_down event then Some (event_code event + 8) else newest)
         newest (concat devs), (λ _, []) <$> devs).
Proof.
  revert newest. induction devs as [|dev devs IH]; intros newest; [done|].
  cbn [read_devices]. rewrite read_device_fold, IH.
  cbn [concat fmap list_fmap]. by rewrite foldl_app.
Qed.

Lemma newest_key_down (events : list Event) (newest : option Z) :
  foldl (λ newest event,
           if is_key_down event then Some (event_code event + 8) else newest)
        newest events =
  match last (filter is_key_down events) with
  | Some event => Some (event_code event + 8)
  | None => newest
  end.
Proof.
  induction events as [|event events IH] using rev_ind; [done|].
  rewrite foldl_app, filter_app, filter_cons, filter_nil. cbn [foldl].
  rewrite IH. case_decide as Hdown.
  - rewrite last_snoc. by destruct (is_key_down event).
  - rewrite app_nil_r. by destruct (is_key_down event).
Qed.

Lemma drain_nil (dev : VirtualDevice) : drain dev = [].
Proof. induction dev; simpl; auto. Qed.

Lemma clear_virtual_devices (self : KeycodeReader) :
  virtual_devices (clear self) = (λ _, []) <$> virtual_devices self.
Proof.
  unfold clear; simpl. apply list_fmap_ext. intros _ dev _. apply drain_nil.
Qed.

Lemma concat_nils {A B : Type} (l : list B) :
  concat ((λ _, @nil A) <$> l) = [].
Proof. induction l; simpl; auto. Qed.

(** X1. [read] returns the code, plus 8, of the last pending event that is
    a press of a key (type [EV_KEY], value 1), the devices taken in their
    order and the events of each oldest first; releases, held keys and
    events of other types are passed over, and without a press it returns
    [None]. *)
Theorem read_newest_key_down (self : KeycodeReader) :
  (read self).1 =
  (λ event, event_code event + 8) <$>
    last (filter is_key_down (concat (virtual_devices self))).
Proof.
  unfold read. rewrite read_devices_fold, newest_key_down. simpl.
  by destruct (last _).
Qed.

(** X2. [read] leaves no event pending on any device and keeps the
    devices: the reader is then as [clear] would leave it, and reading once
    more returns [None] and changes nothing. *)
Theorem read_consumes_pending (self : KeycodeReader) :
  let after := (read self).2 in
  virtual_devices after = (λ _, []) <$> virtual_devices self
  ∧ after = clear self
  ∧ read after = (None, after).
Proof.
  assert (Hafter : (read self).2 = mkReader ((λ _, []) <$> virtual_devices self)).
  { unfold read. by rewrite read_devices_fold. }
  intros after. subst after. rewrite Hafter. split; [done|]. split.
  - destruct (clear self) as [devs] eqn:Hclear.
    f_equal. by rewrite <- clear_virtual_devices, Hclear.
  - unfold read. rewrite read_devices_fold. simpl.
    rewrite concat_nils. simpl. do 2 f_equal.
    rewrite <- list_fmap_compose. done.
Qed.

(** X3. [clear] discards whatever is pending: every device is kept, none
    has an event left, the next [read] returns [None] without changing the
    reader, and clearing twice is clearing once. *)
Theorem clear_discards_pending (self : KeycodeReader) :
  length (virtual_devices (clear self)) = length (virtual_devices self)
  ∧ Forall (λ dev, read_one dev = (None, [])) (virtual_devices (clear self))
  ∧ read (clear self) = (None, clear self)
  ∧ clear (clear self) = clear self.
Proof.
  assert (Hclear : clear self = mkReader ((λ _, []) <$> virtual_devices self)).
  { destruct (clear self) as [devs] eqn:Heq.
    f_equal. by rewrite <- clear_virtual_devices, Heq. }
  split; [|split; [|split]].
  - by rewrite clear_virtual_devices, length_fmap.
  - rewrite clear_virtual_devices. apply Forall_fmap, Forall_forall. done.
  - rewrite Hclear. unfold read. rewrite read_devices_fold. simpl.
    rewrite concat_nils. simpl. do 2 f_equal.
    rewrite <- list_fmap_compose. done.
  - rewrite Hclear. unfold clear at 1. simpl. f_equal.
    rewrite <- list_fmap_compose. apply list_fmap_ext. done.
Qed.

(** ** The dict in insertion order *)

Lemma dict_get_set {V : Type} (k k' : string) (v : V) (d : list (string * V)) :
  dict_get k' (dict_set k v d) = if decide (k = k') then Some v else dict_get k' d.
Proof.
  induction d as [|[k0 v0] d IH]; simpl.
  - destruct (decide (k' = k)), (decide (k = k')); congruence.
  - destruct (decide (k = k0)) as [->|Hne]; simpl.
    + destruct (decide (k' = k0)), (decide (k0 = k')); congruence.
    + rewrite IH. destruct (decide (k' = k0)), (decide (k = k')); congruence.
Qed.

Lemma dict_get_alter {V : Type} (f : V → V) (k k' : string) (d : list (string * V)) :
  dict_get k' (dict_alter f k d) =
  if decide (k = k') then f <$> dict_get k d else dict_get k' d.
Proof.
  induction d as [|[k0 v0] d IH]; simpl.
  - by destruct (decide (k = k')).
  - destruct (decide (k = k0)) as [->|Hne]; simpl.
    + destruct (decide (k' = k0)), (decide (k0 = k')); congruence.
    + rewrite IH. destruct (decide (k' = k0)), (decide (k = k')); congruence.
Qed.

Lemma dict_alter_keys {V : Type} (f : V → V) (k : string) (d : list (string * V)) :
  (dict_alter f k d).*1 = d.*1.
Proof.
  induction d as [|[k0 v0] d IH]; [done|]. cbn [dict_alter].
  destruct (decide (k = k0)); rewrite !fmap_cons; [done|]. by rewrite IH.
Qed.

Lemma dict_get_None {V : Type} (k : string) (d : list (string * V)) :
  dict_get k d = None ↔ k ∉ d.*1.
Proof.
  induction d as [|[k0 v0] d IH]; cbn [dict_get].
  - split; [intros _; apply not_elem_of_nil|done].
  - rewrite fmap_cons, not_elem_of_cons, <- IH. cbn [fst].
    destruct (decide (k = k0)); [|tauto]. split; [done|tauto].
Qed.

Lemma dict_set_fresh_keys {V : Type} (k : string) (v : V) (d : list (string * V)) :
  dict_get k d = None → (dict_set k v d).*1 = d.*1 ++ [k].
Proof.
  induction d as [|[k0 v0] d IH]; [done|]. cbn [dict_get dict_set].
  destruct (decide (k = k0)); [done|]. intros Hd.
  rewrite !fmap_cons. by rewrite IH.
Qed.

Lemma dict_get_elem_of {V : Type} (k : string) (v : V) (d : list (string * V)) :
  NoDup d.*1 → (k, v) ∈ d ↔ dict_get k d = Some v.
Proof.
  induction d as [|[k0 v0] d IH]; cbn [dict_get].
  - intros _. split; [by intros ?%elem_of_nil|done].
  - rewrite fmap_cons. cbn [fst]. intros [Hk0 Hd]%NoDup_cons.
    rewrite elem_of_cons, (IH Hd).
    destruct (decide (k = k0)) as [->|Hne].
    + split; [|intros [= ->]; by left]. intros [[= ->]|Hget]; [done|].
      destruct Hk0. apply dec_stable. rewrite <- dict_get_None. congruence.
    + split; [|by right]. intros [[= ? _]|Hget]; [done|done].
Qed.

(** ** Grouping by usb port *)

Lemma group_device_get grouped device (usb : string) :
  dict_get usb (group_device grouped device) =
  if decide (has_keys device ∧ before_slash (phys device) = usb)
  then Some (default [] (dict_get usb grouped) ++ [(name device, path device)])
  else dict_get usb grouped.
Proof.
  unfold group_device, has_keys. case_bool_decide as Hkeys.
  - rewrite decide_False; [done|]. tauto.
  - rewrite dict_get_alter.
    destruct (decide (before_slash (phys device) = usb)) as [<-|Hne].
    + rewrite decide_True by done.
      destruct (dict_get (before_slash (phys device)) grouped) eqn:Hget; simpl.
      * by rewrite Hget.
      * rewrite dict_get_set. by rewrite decide_True.
    + rewrite decide_False by tauto.
      destruct (dict_get (before_slash (phys device)) grouped); [done|].
      rewrite dict_get_set. by rewrite decide_False.
Qed.

Lemma group_device_NoDup grouped device :
  NoDup grouped.*1 → NoDup (group_device grouped device).*1.
Proof.
  intros Hnodup. unfold group_device. case_bool_decide; [done|].
  rewrite dict_alter_keys.
  destruct (dict_get (before_slash (phys device)) grouped) eqn:Hget; [done|].
  rewrite dict_set_fresh_keys by done.
  apply NoDup_app. split_and!; [done| |apply NoDup_singleton].
  intros k Hk ->%list_elem_of_singleton. by apply dict_get_None in Hget.
Qed.

Lemma grouped_NoDup (evdev_devices : list InputDevice) :
  NoDup (foldl group_device [] evdev_devices).*1.
Proof.
  induction evdev_devices as [|device ds IH] using rev_ind;
    [apply NoDup_nil_2|].
  rewrite foldl_app. by apply group_device_NoDup.
Qed.

(** After the first loop the list under a port holds the name and path of
    the key-capable devices on that port, in their order; a port without
    such a device has no entry. *)
Lemma grouped_get (evdev_devices : list InputDevice) (usb : string) :
  dict_get usb (foldl group_device [] evdev_devices) =
  match port_members evdev_devices usb with
  | [] => None
  | members => Some ((λ device, (name device, path device)) <$> members)
  end.
Proof.
  unfold port_members.
  induction evdev_devices as [|device ds IH] using rev_ind; [done|].
  rewrite foldl_app, filter_app, filter_cons, filter_nil. cbn [foldl].
  rewrite group_device_get, IH. case_decide as Hdev.
  - destruct (filter _ ds) as [|d members]; simpl; [done|].
    by rewrite fmap_app.
  - by rewrite app_nil_r.
Qed.

Lemma grouped_values (evdev_devices : list InputDevice)
    (group : list (string * string)) :
  group ∈ (foldl group_device [] evdev_devices).*2 ↔
  ∃ usb, port_members evdev_devices usb ≠ []
    ∧ group = (λ device, (name device, path device))
                <$> port_members evdev_devices usb.
Proof.
  rewrite list_elem_of_fmap. split.
  - intros ([usb g] & -> & Hin).
    apply dict_get_elem_of in Hin; [|apply grouped_NoDup].
    rewrite grouped_get in Hin. exists usb.
    destruct (port_members evdev_devices usb); [done|].
    by injection Hin as <-.
  - intros (usb & Hne & ->). eexists (usb, _). split; [done|].
    apply dict_get_elem_of; [apply grouped_NoDup|].
    rewrite grouped_get. by destruct (port_members evdev_devices usb).
Qed.

(** ** The shortest name *)

(** [len] counts code points: two for a name of two Greek letters, which
    takes four bytes, so that this name sorts before one of three Latin
    letters. *)
Lemma len_code_points :
  len "ΩΩ" = 2%nat ∧ String.length "ΩΩ" = 4%nat
  ∧ sorted_by_len ["abc"; "ΩΩ"] = ["ΩΩ"; "abc"]
  ∧ sorted_by_len ["ΩΩ"; "abc"] = ["ΩΩ"; "abc"].
Proof. repeat split. Qed.

Lemma len_ascii (s : string) :
  (∀ c, c ∈ String.list_ascii_of_string s → (nat_of_ascii c < 128)%nat) →
  len s = String.length s.
Proof.
  induction s as [|c s IH]; [done|]. cbn [String.list_ascii_of_string len String.length].
  intros Hascii. rewrite IH.
  - assert (Hc : (nat_of_ascii c < 128)%nat) by apply Hascii, list_elem_of_here.
    unfold is_continuation.
    destruct (128 <=? nat_of_ascii c)%nat eqn:Hle; [|done].
    apply Nat.leb_le in Hle. lia.
  - intros c' Hc'. by apply Hascii, list_elem_of_further.
Qed.

Lemma sorted_by_len_head (names : list string) :
  names ≠ [] →
  ∃ n rest l1 l2, sorted_by_len names = n :: rest
    ∧ names = l1 ++ n :: l2
    ∧ (∀ y, y ∈ l1 → len n < len y)%nat
    ∧ (∀ y, y ∈ l2 → len n ≤ len y)%nat.
Proof.
  induction names as [|x names IH]; [done|]. intros _.
  destruct names as [|x' names].
  { exists x, [], [], []. split_and!; [done..| |]; by intros ? ?%elem_of_nil. }
  destruct IH as (n & rest & l1 & l2 & Hsorted & Hnames & Hl1 & Hl2); [done|].
  unfold sorted_by_len in *. cbn [foldr] in *. rewrite Hsorted, Hnames.
  cbn [insert_by_len]. case_bool_decide as Hlen.
  - exists x, (n :: rest), [], (l1 ++ n :: l2).
    split_and!; [done..|by intros ? ?%elem_of_nil|].
    intros y [Hy|[->|Hy]%elem_of_cons]%elem_of_app.
    + specialize (Hl1 y Hy). lia.
    + done.
    + specialize (Hl2 y Hy). lia.
  - exists n, (insert_by_len x rest), (x :: l1), l2.
    split_and!; [done..| |done].
    intros y [->|Hy]%elem_of_cons; [lia|by apply Hl1].
Qed.

(** ** The second loop *)

Lemma add_groups_lookup (groups : list (list (string * string)))
    (result : gmap string DeviceGroup) :
  Forall (λ group, group ≠ []) groups →
  ∃ result', foldl add_group (Returns result) groups = Returns result'
    ∧ ∀ n, result' !! n =
        match last (filter (λ group, head (sorted_by_len group.*1) = Some n)
                           groups) with
        | Some group => Some (mkGroup group.*2 group.*1)
        | None => result !! n
        end.
Proof.
  induction groups as [|group groups IH] using rev_ind; intros Hne.
  { by exists result. }
  apply Forall_app in Hne as [Hgroups [Hgroup _]%Forall_cons].
  destruct (IH Hgroups) as (result' & Hfold & Hlookup).
  rewrite foldl_app, Hfold. cbn [foldl add_group].
  destruct (sorted_by_len_head group.*1) as (n0 & rest & _ & _ & Hsorted & _).
  { by destruct group. }
  rewrite Hsorted. eexists. split; [done|]. intros n.
  rewrite filter_app, filter_cons, filter_nil, Hsorted. cbn [head].
  destruct (decide (n0 = n)) as [->|Hn].
  - rewrite decide_True by done. by rewrite last_snoc, lookup_insert_eq.
  - rewrite decide_False by congruence.
    by rewrite app_nil_r, lookup_insert_ne, Hlookup.
Qed.

Lemma get_devices_lookup (evdev_devices : list InputDevice) :
  ∃ result, _get_devices evdev_devices = Returns result
    ∧ ∀ n, result !! n =
        (λ group, mkGroup group.*2 group.*1) <$>
          last (filter (λ group, head (sorted_by_len group.*1) = Some n)
                       (foldl group_device [] evdev_devices).*2).
Proof.
  destruct (add_groups_lookup (foldl group_device [] evdev_devices).*2 ∅)
    as (result & Hfold & Hlookup).
  { apply Forall_forall. intros group (usb & Hne & ->)%grouped_values.
    by destruct (port_members evdev_devices usb). }
  exists result. split; [done|]. intros n. rewrite Hlookup.
  by destruct (last _).
Qed.

(** ** What [_get_devices] sends *)

(** X4. [_get_devices] never raises: every group that the first loop
    builds has a member, so [sorted(names, key=len)[0]] always exists. *)
Theorem get_devices_never_raises (evdev_devices : list InputDevice) :
  ∃ result, _get_devices evdev_devices = Returns result.
Proof.
  destruct (get_devices_lookup evdev_devices) as (result & Hresult & _).
  by exists result.
Qed.

(** X5. Every entry of the result is one usb port: its devices and paths
    are the names and the paths of all key-capable devices whose [phys]
    starts with that port, in the order they were listed, and there is at
    least one; the entry's key is one of these names, with strictly fewer
    code points than the names before it and no more than the names after
    it. *)
Theorem get_devices_groups_by_port (evdev_devices : list InputDevice)
    (result : gmap string DeviceGroup) (n : string) (g : DeviceGroup) :
  _get_devices evdev_devices = Returns result →
  result !! n = Some g →
  ∃ usb, let members := port_members evdev_devices usb in
    members ≠ []
    ∧ devices g = name <$> members
    ∧ paths g = path <$> members
    ∧ ∃ before after, devices g = before ++ n :: after
        ∧ (∀ y, y ∈ before → len n < len y)%nat
        ∧ (∀ y, y ∈ after → len n ≤ len y)%nat.
Proof.
  intros Hresult Hn.
  destruct (get_devices_lookup evdev_devices) as (result' & Hresult' & Hlookup).
  rewrite Hresult in Hresult'. injection Hresult' as <-.
  rewrite Hlookup in Hn.
  destruct (last _) as [group|] eqn:Hlast; [|done]. injection Hn as <-.
  apply last_Some_elem_of, list_elem_of_filter in Hlast as [Hhead Hgroup].
  apply grouped_values in Hgroup as (usb & Hne & ->).
  exists usb. cbn zeta.
  rewrite <- !list_fmap_compose in *. cbn [devices paths].
  change (fst ∘ (λ device, (name device, path device))) with name in *.
  change (snd ∘ (λ device, (name device, path device))) with path.
  split_and!; [done..|].
  destruct (sorted_by_len_head (name <$> port_members evdev_devices usb))
    as (n0 & rest & l1 & l2 & Hsorted & Hnames & Hl1 & Hl2).
  { by destruct (port_members evdev_devices usb). }
  rewrite Hsorted in Hhead. injection Hhead as ->. by exists l1, l2.
Qed.

(** X6. A port with at least one key-capable device is in the result under
    its shortest name, with all its key-capable devices, provided no other
    port has the same shortest name. *)
Theorem get_devices_lists_every_port (evdev_devices : list InputDevice)
    (result : gmap string DeviceGroup) (usb n : string) :
  _get_devices evdev_devices = Returns result →
  head (sorted_by_len (name <$> port_members evdev_devices usb)) = Some n →
  (∀ usb', head (sorted_by_len (name <$> port_members evdev_devices usb'))
             = Some n → usb' = usb) →
  result !! n = Some (mkGroup (path <$> port_members evdev_devices usb)
                              (name <$> port_members evdev_devices usb)).
Proof.
  intros Hresult Hhead Hunique.
  destruct (get_devices_lookup evdev_devices) as (result' & Hresult' & Hlookup).
  rewrite Hresult in Hresult'. injection Hresult' as <-.
  rewrite Hlookup.
  set (group := (λ device, (name device, path device))
                  <$> port_members evdev_devices usb).
  assert (Hnames : ∀ usb', ((λ device, (name device, path device))
                              <$> port_members evdev_devices usb').*1
                           = name <$> port_members evdev_devices usb').
  { intros usb'. by rewrite <- list_fmap_compose. }
  assert (Hlast : ∀ groups,
            Forall (λ g, g = group) groups → groups ≠ [] →
            last groups = Some group).
  { intros groups Hall Hne.
    destruct (last groups) as [g|] eqn:Hg.
    - apply last_Some_elem_of in Hg.
      by rewrite (proj1 (Forall_forall _ _) Hall g Hg).
    - by apply last_None in Hg. }
  rewrite Hlast.
  - subst group. simpl. by rewrite <- !list_fmap_compose.
  - apply Forall_forall. intros g [Hg Hin]%list_elem_of_filter.
    apply grouped_values in Hin as (usb' & _ & ->).
    rewrite Hnames in Hg. by rewrite (Hunique usb' Hg).
  - assert (Hin : group ∈ filter
              (λ g, head (sorted_by_len g.*1) = Some n)
              (foldl group_device [] evdev_devices).*2).
    { apply list_elem_of_filter. split.
      - subst group. by rewrite Hnames.
      - apply grouped_values. exists usb. split; [|done].
        intros Hnil. by rewrite Hnil in Hhead. }
    intros Hnil. rewrite Hnil in Hin. by apply elem_of_nil in Hin.
Qed.

(** X7. Devices that are not capable of [EV_KEY] change nothing: the
    result is the one for the list without them. *)
Theorem get_devices_ignores_keyless (evdev_devices : list InputDevice) :
  _get_devices evdev_devices = _get_devices (filter has_keys evdev_devices).
Proof.
  unfold _get_devices.
  enough (H : ∀ grouped, foldl group_device grouped evdev_devices
                = foldl group_device grouped (filter has_keys evdev_devices))
    by (by rewrite H).
  induction evdev_devices as [|device ds IH]; intros grouped; [done|].
  rewrite filter_cons. cbn [foldl]. case_decide as Hkeys.
  - cbn [foldl]. apply IH.
  - rewrite <- IH. f_equal. unfold group_device.
    by rewrite bool_decide_eq_true_2.
Qed.

Lemma example_devices_result : _get_devices example_devices = Returns example_result.
Proof. vm_compute. reflexivity. Qed.

(** X5 on the example: the keyboard that shows up twice. *)
Lemma get_devices_groups_by_port_witness :
  ∃ usb, let members := port_members example_devices usb in
    members ≠ []
    ∧ ["Logitech USB Keyboard Consumer Control"; "Logitech USB Keyboard"]
        = name <$> members
    ∧ ["/dev/input/event4"; "/dev/input/event3"] = path <$> members
    ∧ ∃ before after,
        ["Logitech USB Keyboard Consumer Control"; "Logitech USB Keyboard"]
          = before ++ "Logitech USB Keyboard" :: after
        ∧ (∀ y, y ∈ before → len "Logitech USB Keyboard" < len y)%nat
        ∧ (∀ y, y ∈ after → len "Logitech USB Keyboard" ≤ len y)%nat.
Proof.
  exact (get_devices_groups_by_port example_devices example_result
           "Logitech USB Keyboard"
           (mkGroup ["/dev/input/event4"; "/dev/input/event3"]
              ["Logitech USB Keyboard Consumer Control"; "Logitech USB Keyboard"])
           example_devices_result eq_refl).
Defined.

Lemma example_ports (usb : string) :
  port_members example_devices usb ≠ [] →
  usb = "usb-0000:03:00.0-4" ∨ usb = "usb-0000:03:00.0-3".
Proof.
  intros Hne.
  destruct (decide (usb = "usb-0000:03:00.0-4")) as [|H4]; [by left|].
  destruct (decide (usb = "usb-0000:03:00.0-3")) as [|H3]; [by right|].
  destruct Hne. unfold port_members, example_devices.
  repeat (rewrite filter_cons, decide_False;
          [|intros [_ Heq]; vm_compute in Heq; congruence]).
  done.
Defined.

(** X6 on the example: the port of the second keyboard. *)
Lemma get_devices_lists_every_port_witness :
  example_result !! "Gaming Keyboard"
  = Some (mkGroup (path <$> port_members example_devices "usb-0000:03:00.0-3")
                  (name <$> port_members example_devices "usb-0000:03:00.0-3")).
Proof.
  apply (get_devices_lists_every_port example_devices example_result
           "usb-0000:03:00.0-3" "Gaming Keyboard" example_devices_result eq_refl).
  intros usb' Hhead.
  destruct (example_ports usb') as [-> | ->]; [|discriminate Hhead|reflexivity].
  intros Hnil. rewrite Hnil in Hhead. discriminate Hhead.
Defined.

End LinuxFacts.

(** * Further properties of the context *)

Section RegistryExtras.

Context {Macro Handler Callback : Type}.
Context {collaborators : Collaborators Macro Handler Callback}.

Local Abbreviation Ctx := (Context Macro Handler Callback).

Lemma registry_fold_lookup (c : gmap (Z * Z) (list Callback))
    (hs : list (Event * list Handler)) (d : Z * Z) :
  foldl register_handlers c hs !! d =
  match last (filter (λ item, slice2 item.1 = d) hs) with
  | Some item => Some (notify <$> item.2)
  | None => c !! d
  end.
Proof.
  induction hs as [|[key hl] hs IH] using rev_ind; [done|].
  rewrite foldl_app, filter_app. cbn [foldl].
  rewrite register_handlers_lookup, filter_cons, filter_nil. cbn [fst snd].
  case_decide as Hd.
  - by rewrite last_snoc.
  - by rewrite app_nil_r.
Qed.

Lemma last_filter_None {A : Type} (P : A → Prop) `{∀ x, Decision (P x)}
    (l : list A) :
  last (filter P l) = None ↔ ∀ x, x ∈ l → ¬ P x.
Proof.
  rewrite last_None. split.
  - intros Hnil x Hx HP.
    assert (Hin : x ∈ filter P l) by (by apply list_elem_of_filter).
    rewrite Hnil in Hin. by apply elem_of_nil in Hin.
  - intros Hnone. destruct (filter P l) as [|x l'] eqn:Hf; [done|].
    assert (Hin : x ∈ filter P l) by (rewrite Hf; apply list_elem_of_here).
    apply list_elem_of_filter in Hin as [HP Hx]. by destruct (Hnone x Hx).
Qed.

(** X8. Where no two handler keys share their [(type, code)],
    [update_callbacks] files under the dispatch key of every handler key the
    [notify] of exactly that key's handlers, in their order, and leaves every
    other entry of [callbacks] as it was. *)
Theorem registry_holds_every_handler (self : Ctx) :
  NoDup ((λ item, slice2 item.1) <$> _handlers self) →
  (∀ key hl, (key, hl) ∈ _handlers self →
     callbacks (update_callbacks self) !! slice2 key = Some (notify <$> hl))
  ∧ (∀ d, (∀ key hl, (key, hl) ∈ _handlers self → slice2 key ≠ d) →
     callbacks (update_callbacks self) !! d = callbacks self !! d).
Proof.
  intros Hdistinct. split.
  - intros key hl Hin. by apply update_callbacks_distinct.
  - intros d Hother. rewrite update_callbacks_lookup.
    destruct (last _) as [[key hl]|] eqn:Hlast; [|done].
    apply last_Some_elem_of, list_elem_of_filter in Hlast as [Hd Hin].
    by destruct (Hother key hl Hin).
Qed.

(** X9. After [update_callbacks] the registry has an entry for the
    [(type, code)] of every handler key and, besides the entries it had
    before, for nothing else; on a constructed context these are the only
    entries, so the [(type, code)] of an event no handler is keyed by is not
    in the registry. *)
Theorem registry_dispatch_keys (self : Ctx) (m : Mapping) :
  dom (callbacks (update_callbacks self))
    = dom (callbacks self)
      ∪ list_to_set ((λ item, slice2 item.1) <$> _handlers self)
  ∧ dom (callbacks (__init__ m))
      = list_to_set ((λ item, slice2 item.1) <$> _handlers (__init__ m))
  ∧ ∀ d, callbacks (__init__ m) !! d = None ↔
         ∀ key hl, (key, hl) ∈ _handlers (__init__ m) → slice2 key ≠ d.
Proof.
  assert (Hdom : ∀ self : Ctx, dom (callbacks (update_callbacks self))
    = dom (callbacks self)
      ∪ list_to_set ((λ item, slice2 item.1) <$> _handlers self)).
  { clear self. intros self. apply set_eq. intros d.
    rewrite elem_of_union, !elem_of_dom, elem_of_list_to_set, list_elem_of_fmap.
    rewrite update_callbacks_lookup.
    destruct (last _) as [[key hl]|] eqn:Hlast.
    - apply last_Some_elem_of, list_elem_of_filter in Hlast as [Hd Hin].
      split; [|by eauto]. intros _. right. by exists (key, hl).
    - split; [by left|]. intros [?|([key hl] & -> & Hin)]; [done|].
      eapply last_filter_None in Hlast; [|done]. by destruct Hlast. }
  split; [apply Hdom|]. split.
  - unfold __init__ at 1. rewrite Hdom. simpl. by rewrite dom_empty_L, union_empty_l_L.
  - intros d. unfold __init__ at 1. rewrite update_callbacks_lookup. simpl.
    destruct (last _) as [[key hl]|] eqn:Hlast.
    + apply last_Some_elem_of, list_elem_of_filter in Hlast as [Hd Hin].
      split; [done|]. intros Hnone. by destruct (Hnone key hl Hin).
    + split; [|by rewrite lookup_empty]. intros _ key hl Hin Hd.
      eapply last_filter_None in Hlast; [|exact Hin]. by destruct Hlast.
Qed.

(** X10. Running [update_callbacks] again changes nothing. *)
Theorem update_callbacks_idempotent (self : Ctx) :
  update_callbacks (update_callbacks self) = update_callbacks self.
Proof.
  unfold update_callbacks, set_callbacks; simpl. f_equal.
  apply map_eq. intros d. rewrite !registry_fold_lookup.
  by destruct (last _).
Qed.

End RegistryExtras.

(** X8 on two handler keys on different physical keys. *)
Lemma registry_holds_every_handler_witness :
  let self := set_handlers (__init__ Example.direct_mapping)
                Example.distinct_handlers in
  callbacks (update_callbacks self) !! (1, 30)
    = Some ["combination.notify"; "key.notify"]
  ∧ callbacks (update_callbacks self) !! (1, 42) = Some ["macro.notify"].
Proof.
  intros self.
  destruct (registry_holds_every_handler
              (collaborators := Example.collaborators) self) as [Hall _].
  { change (NoDup [((1, 30) : Z * Z); (1, 42)]).
    apply NoDup_cons. split; [|apply NoDup_singleton].
    intros H. apply list_elem_of_singleton in H. discriminate H. }
  split.
  - apply (Hall (1, 30, 1) ["combination"; "key"]), list_elem_of_here.
  - apply (Hall (1, 42, 1) ["macro"]), list_elem_of_further, list_elem_of_here.
Defined.

Section TableExtras.

Context {Macro Handler Callback : Type}.
Context {collaborators : Collaborators Macro Handler Callback}.

Local Abbreviation Ctx := (Context Macro Handler Callback).

Lemma mret_bind_Logged {A B : Type} (a : A) (f : A → Logged B) :
  mret a ≫= f = f a.
Proof. by apply Logged_eq. Qed.

Lemma for_each_snoc {A S : Type} (xs : list A) (x : A) (s : S)
    (body : S → A → Logged S) :
  value (for_each (xs ++ [x]) s body) = value (body (value (for_each xs s body)) x).
Proof. rewrite for_each_app. cbn [for_each]. by rewrite !value_bind. Qed.

Lemma for_each_value_replace {A S : Type} (pre post : list A) (x x' : A) (s : S)
    (body : S → A → Logged S) :
  (∀ s, value (body s x) = value (body s x')) →
  value (for_each (pre ++ x :: post) s body)
  = value (for_each (pre ++ x' :: post) s body).
Proof.
  intros Hsame. rewrite !for_each_app. cbn [for_each].
  by rewrite !value_bind, Hsame.
Qed.

Lemma for_each_filter {A S : Type} (P : A → Prop) `{∀ x, Decision (P x)}
    (xs : list A) (s : S) (body : S → A → Logged S) :
  (∀ s x, ¬ P x → body s x = mret s) →
  for_each (filter P xs) s body = for_each xs s body.
Proof.
  intros Hskip. revert s. induction xs as [|x xs IH]; intros s; [done|].
  rewrite filter_cons. cbn [for_each]. case_decide as HP.
  - cbn [for_each]. apply Logged_eq.
    + by rewrite !value_bind, IH.
    + by rewrite !logs_bind, IH.
  - rewrite (Hskip s x HP), mret_bind_Logged. apply IH.
Qed.

(** X11. The direct table binds a chord to the key code and target of the
    last entry, in the order of the mapping, that is no macro, whose symbol
    is known and that has the chord among its permutations; a chord that no
    such entry has is not bound. *)
Theorem key_to_code_last_entry_wins (self : Ctx) (chord : list Event) :
  value (_map_keys_to_codes self) !! chord =
  match last (filter (λ entry : Key * Output,
                        is_this_a_macro entry.2.1 = false
                        ∧ is_Some (system_mapping_get entry.2.1)
                        ∧ chord ∈ keys <$> get_permutations entry.1)
                     (mapping_iter (mapping self))) with
  | Some entry =>
      (λ target_code, (target_code, entry.2.2)) <$> system_mapping_get entry.2.1
  | None => None
  end.
Proof.
  unfold _map_keys_to_codes.
  induction (mapping_iter (mapping self)) as [|[key output] es IH] using rev_ind;
    [done|].
  rewrite for_each_snoc, map_keys_entry_value, filter_app, filter_cons, filter_nil.
  cbn [fst snd].
  destruct (is_this_a_macro output.1) eqn:Hmacro.
  { rewrite decide_False by (by intros [? _]). by rewrite app_nil_r. }
  destruct (system_mapping_get output.1) as [code|] eqn:Hsym.
  2: { rewrite decide_False by (intros (_ & [? ?] & _); done).
       by rewrite app_nil_r. }
  rewrite insert_permutations_lookup. case_decide as Hperm.
  - rewrite decide_True by (split_and!; eauto).
    rewrite last_snoc. cbn [fst snd]. by rewrite Hsym.
  - rewrite decide_False by tauto. by rewrite app_nil_r.
Qed.

(** X12. The macro table binds a chord to the program and target of the
    last entry that is a macro, compiles and has the chord among its
    permutations; a chord that no such entry has is not bound. *)
Theorem macros_last_entry_wins (self : Ctx) (chord : list Event) :
  value (_parse_macros self) !! chord =
  match last (filter (λ entry : Key * Output,
                        is_this_a_macro entry.2.1 = true
                        ∧ is_Some (value (parse entry.2.1 self))
                        ∧ chord ∈ keys <$> get_permutations entry.1)
                     (mapping_iter (mapping self))) with
  | Some entry =>
      (λ macro, (macro, entry.2.2)) <$> value (parse entry.2.1 self)
  | None => None
  end.
Proof.
  rewrite parse_macros_value.
  induction (mapping_iter (mapping self)) as [|[key output] es IH] using rev_ind;
    [done|].
  rewrite for_each_snoc, parse_macros_entry_value, filter_app, filter_cons,
    filter_nil.
  cbn [fst snd].
  destruct (is_this_a_macro output.1) eqn:Hmacro.
  2: { rewrite decide_False by (by intros [? _]). by rewrite app_nil_r. }
  destruct (value (parse output.1 self)) as [macro|] eqn:Hparse.
  2: { rewrite decide_False by (intros (_ & [? ?] & _); done).
       by rewrite app_nil_r. }
  rewrite insert_permutations_lookup. case_decide as Hperm.
  - rewrite decide_True by (split_and!; eauto).
    rewrite last_snoc. cbn [fst snd]. by rewrite Hparse.
  - rewrite decide_False by tauto. by rewrite app_nil_r.
Qed.

Lemma permuted_keys_same_binding (k1 k2 : Key) (chord : list Event) :
  same_binding k1 k2 →
  chord ∈ keys <$> get_permutations k1 ↔ chord ∈ keys <$> get_permutations k2.
Proof.
  intros [Hm Ht]. rewrite !elem_of_permuted_keys.
  split; intros (l & Hl & ->); exists l.
  - by rewrite <- Hm, <- Ht.
  - by rewrite Hm, Ht.
Qed.

Lemma insert_permutations_same_binding {V : Type} (t : gmap (list Event) V)
    (k1 k2 : Key) (v : V) :
  same_binding k1 k2 → insert_permutations t k1 v = insert_permutations t k2 v.
Proof.
  intros Hsame. apply map_eq. intros chord.
  rewrite !insert_permutations_lookup.
  destruct (decide (chord ∈ keys <$> get_permutations k1)) as [Hin|Hin].
  - rewrite decide_True; [done|]. by apply (permuted_keys_same_binding k1 k2).
  - rewrite decide_False; [done|].
    by rewrite <- (permuted_keys_same_binding k1 k2).
Qed.

(** X13. The tables depend on the chord of an entry only through its
    binding: writing the non-trigger triples of one entry in another order
    leaves the direct table as it is, and the macro table too when the
    compiler returns the same programs for both contexts. *)
Theorem tables_depend_on_binding (self self' : Ctx)
    (pre post : list (Key * Output)) (key key' : Key) (output : Output) :
  mapping_iter (mapping self) = pre ++ (key, output) :: post →
  mapping_iter (mapping self') = pre ++ (key', output) :: post →
  same_binding key key' →
  value (_map_keys_to_codes self) = value (_map_keys_to_codes self')
  ∧ ((∀ s, value (parse s self) = value (parse s self')) →
     value (_parse_macros self) = value (_parse_macros self')).
Proof.
  intros Hself Hself' Hsame. split.
  - unfold _map_keys_to_codes. rewrite Hself, Hself'.
    apply for_each_value_replace. intros t.
    rewrite !map_keys_entry_value.
    destruct (is_this_a_macro output.1); [done|].
    destruct (system_mapping_get output.1); [|done].
    by apply insert_permutations_same_binding.
  - intros Hparse. rewrite !parse_macros_value, Hself, Hself'.
    rewrite (for_each_value_ext _ _ (parse_macros_entry self')
                                    (parse_macros_entry self)).
    + apply for_each_value_replace. intros t.
      rewrite !parse_macros_entry_value.
      destruct (is_this_a_macro output.1); [|done].
      destruct (value (parse output.1 self)); [|done].
      by apply insert_permutations_same_binding.
    + intros t [k o]. rewrite !parse_macros_entry_value. by rewrite Hparse.
Qed.

(** X14. Each builder passes over the entries of the other kind: the
    direct table and its log are the ones of the mapping without its macro
    entries, and the macro table is the one of the mapping without its other
    entries. *)
Theorem builders_skip_other_kind (self : Ctx) :
  _map_keys_to_codes self
    = for_each (filter (λ entry : Key * Output, is_this_a_macro entry.2.1 = false)
                       (mapping_iter (mapping self))) ∅ map_keys_entry
  ∧ value (_parse_macros self)
    = value (for_each
               (filter (λ entry : Key * Output, is_this_a_macro entry.2.1 = true)
                       (mapping_iter (mapping self))) ∅ (parse_macros_entry self)).
Proof.
  split.
  - unfold _map_keys_to_codes. symmetry. apply for_each_filter.
    intros t [key output] Hmacro. unfold map_keys_entry.
    cbn [fst snd] in Hmacro. by destruct (is_this_a_macro output.1).
  - rewrite parse_macros_value. f_equal. symmetry. apply for_each_filter.
    intros t [key output] Hmacro. unfold parse_macros_entry.
    cbn [fst snd] in Hmacro. by destruct (is_this_a_macro output.1).
Qed.

End TableExtras.

Section SessionExtras.

Context {Macro Handler Callback : Type}.
Context {collaborators : Collaborators Macro Handler Callback}.

Local Abbreviation Ctx := (Context Macro Handler Callback).

Lemma last_value_permutation (p key : Key) :
  p ∈ get_permutations key → last_value p = last_value key.
Proof.
  intros [_ Ht]%elem_of_get_permutations. unfold last_value. by rewrite Ht.
Qed.

Lemma map_keys_entry_logs_nil t key output :
  logs (map_keys_entry t (key, output)) = [] ↔
  (is_this_a_macro output.1 = false →
   is_Some (system_mapping_get output.1) ∧ last_value key ∈ [-1; 1]).
Proof.
  destruct (is_this_a_macro output.1) eqn:Hmacro.
  { unfold map_keys_entry. rewrite Hmacro. done. }
  destruct (system_mapping_get output.1) as [code|] eqn:Hsym.
  2: { rewrite map_keys_entry_unknown by done. simpl.
       split; [done|]. intros [[? ?] _]; done. }
  rewrite (map_keys_entry_resolved _ _ _ code) by done. simpl. split.
  - intros Hnil. intros _. split; [by eauto|].
    destruct (decide (last_value key ∈ [-1; 1])) as [|Hbad]; [done|].
    assert (Hin : mkLog ERROR unexpected_value_msg [ArgKeys (keys key)]
              ∈ get_permutations key ≫= λ p,
                  if bool_decide (last_value p ∉ [-1; 1])
                  then [mkLog ERROR unexpected_value_msg [ArgKeys (keys p)]]
                  else []).
    { apply list_elem_of_bind. exists key. split.
      - rewrite bool_decide_eq_true_2 by done. apply list_elem_of_here.
      - apply elem_of_get_permutations. by split. }
    rewrite Hnil in Hin. by apply elem_of_nil in Hin.
  - intros Hclean. destruct (Hclean eq_refl) as [_ Hvalue].
    destruct (get_permutations key ≫= _) as [|r rs] eqn:Hlogs; [done|].
    assert (Hin : r ∈ r :: rs) by apply list_elem_of_here.
    rewrite <- Hlogs in Hin. apply list_elem_of_bind in Hin as (p & Hr & Hp).
    rewrite (last_value_permutation p key Hp) in Hr.
    rewrite bool_decide_eq_false_2 in Hr by (by intros []).
    by apply elem_of_nil in Hr.
Qed.

(** X15. [_map_keys_to_codes] logs nothing exactly when every entry that
    is no macro has a symbol that the symbol table knows and a trigger whose
    value is -1 or 1. *)
Theorem map_keys_log_empty_iff (self : Ctx) :
  logs (_map_keys_to_codes self) = [] ↔
  ∀ key output, (key, output) ∈ mapping_iter (mapping self) →
    is_this_a_macro output.1 = false →
    is_Some (system_mapping_get output.1) ∧ last_value key ∈ [-1; 1].
Proof.
  unfold _map_keys_to_codes. generalize (∅ : gmap (list Event) (Z * string)).
  induction (mapping_iter (mapping self)) as [|[key output] es IH]; intros t.
  { split; [|done]. by intros _ ? ? ?%elem_of_nil. }
  cbn [for_each]. rewrite logs_bind, app_nil, IH, map_keys_entry_logs_nil.
  split.
  - intros [Hentry Hrest] key' output' [[= -> ->]|Hin]%elem_of_cons; eauto.
  - intros Hall. split.
    + apply Hall, list_elem_of_here.
    + intros key' output' Hin. by apply Hall, list_elem_of_further.
Qed.

Lemma table_non_empty {V : Type} (m : gmap (list Event) V) :
  (0 < size m)%nat ↔ ∃ chord, is_Some (m !! chord).
Proof. rewrite <- map_size_ne_0_lookup. lia. Qed.

(** X16. With the tables assigned from the builders, [writes_keys] returns
    true exactly when the mapping has an entry that is a macro and compiles
    and an entry that is no macro and whose symbol is known; otherwise it
    returns false. *)
Theorem writes_keys_with_tables (self : Ctx) :
  let has_macro := ∃ key output, (key, output) ∈ mapping_iter (mapping self)
      ∧ is_this_a_macro output.1 = true
      ∧ is_Some (value (parse output.1 self)) in
  let has_key := ∃ key output, (key, output) ∈ mapping_iter (mapping self)
      ∧ is_this_a_macro output.1 = false
      ∧ is_Some (system_mapping_get output.1) in
  (writes_keys (with_tables self) = Ok true ↔ has_macro ∧ has_key)
  ∧ (writes_keys (with_tables self) = Ok false ↔ ¬ (has_macro ∧ has_key)).
Proof.
  intros has_macro has_key.
  assert (Hmacros : (0 < size (value (_parse_macros self)))%nat ↔ has_macro).
  { rewrite table_non_empty, parse_macros_value. split.
    - intros (chord & Hsome). apply parse_macros_loop_is_Some in Hsome
        as [Hsome|(key & output & ? & ? & ? & _)].
      + rewrite lookup_empty in Hsome. by destruct Hsome.
      + by exists key, output.
    - intros (key & output & Hin & Hm & Hp). exists (keys key).
      apply parse_macros_loop_is_Some. right. exists key, output.
      split_and!; [done..|]. apply list_elem_of_fmap. exists key.
      split; [done|]. apply elem_of_get_permutations. by split. }
  assert (Hcodes : (0 < size (value (_map_keys_to_codes self)))%nat ↔ has_key).
  { rewrite table_non_empty. unfold _map_keys_to_codes. split.
    - intros (chord & Hsome). apply map_keys_loop_is_Some in Hsome
        as [Hsome|(key & output & ? & ? & ? & _)].
      + rewrite lookup_empty in Hsome. by destruct Hsome.
      + by exists key, output.
    - intros (key & output & Hin & Hm & Hp). exists (keys key).
      apply map_keys_loop_is_Some. right. exists key, output.
      split_and!; [done..|]. apply list_elem_of_fmap. exists key.
      split; [done|]. apply elem_of_get_permutations. by split. }
  assert (Heq : writes_keys (with_tables self)
    = Ok (bool_decide (0 < size (value (_parse_macros self)))%nat
          && bool_decide (0 < size (value (_map_keys_to_codes self)))%nat)).
  { unfold writes_keys, with_tables. simpl. by case_bool_decide. }
  rewrite Heq, <- Hmacros, <- Hcodes. split.
  - split.
    + intros [= [?%bool_decide_eq_true ?%bool_decide_eq_true]%andb_true_iff].
      done.
    + intros [? ?]. by rewrite !bool_decide_eq_true_2.
  - split.
    + intros [= H] [? ?]. by rewrite !bool_decide_eq_true_2 in H.
    + intros Hnot. f_equal. apply not_true_is_false.
      intros [?%bool_decide_eq_true ?%bool_decide_eq_true]%andb_true_iff.
      by apply Hnot.
Qed.

(** X17. [is_mapped] reads [macros] first and [key_to_code] only when the
    chord is no key of [macros]: it raises for [macros] exactly when that
    attribute is unassigned, it raises for [key_to_code] exactly when
    [macros] is assigned without the chord and [key_to_code] is unassigned,
    and in every other case it returns whether the chord is a key of one of
    the two tables. *)
Theorem is_mapped_partial (self : Ctx) (chord : list Event) :
  (is_mapped self chord = Raise (AttributeError "Context" "macros") ↔
     macros self = None)
  ∧ (is_mapped self chord = Raise (AttributeError "Context" "key_to_code") ↔
     ∃ m, macros self = Some m ∧ m !! chord = None ∧ key_to_code self = None)
  ∧ (∀ m, macros self = Some m → is_Some (m !! chord) →
     is_mapped self chord = Ok true)
  ∧ (∀ m k, macros self = Some m → key_to_code self = Some k →
     is_mapped self chord =
       Ok (bool_decide (is_Some (m !! chord) ∨ is_Some (k !! chord)))).
Proof.
  unfold is_mapped.
  destruct (macros self) as [m|], (key_to_code self) as [k|]; simpl;
    repeat case_bool_decide; split_and!;
    try (split; [done|]; try done; intros (? & [= <-] & ? & ?); try done;
         match goal with H : is_Some ?x, H' : ?x = None |- _ =>
           rewrite H' in H; by destruct H end);
    try (intros ? [= <-] ?; done);
    try (intros ? ? [= <-] [= <-]; f_equal; symmetry;
         first [apply bool_decide_eq_true_2; tauto
               |apply bool_decide_eq_false_2; tauto]);
    try (intros ? ? ?; done).
  - split; [intros _|done]. exists m. split_and!; [done| |done].
    by apply eq_None_not_Some.
Qed.

(** X18. [writes_keys] reads [key_to_code] only when [macros] is not
    empty: with an empty macro table it returns false even when
    [key_to_code] is unassigned, with a macro table that is not empty and
    [key_to_code] unassigned it raises, and it raises for [macros] exactly
    when that attribute is unassigned. *)
Theorem writes_keys_partial (self : Ctx) :
  (writes_keys self = Raise (AttributeError "Context" "macros") ↔
     macros self = None)
  ∧ (writes_keys self = Raise (AttributeError "Context" "key_to_code") ↔
     ∃ m, macros self = Some m ∧ m ≠ ∅ ∧ key_to_code self = None)
  ∧ (macros self = Some ∅ → writes_keys self = Ok false).
Proof.
  unfold writes_keys. destruct (macros self) as [m|]; simpl.
  2: { split_and!; [done| |done]. split; [done|]. by intros (? & ? & _). }
  case_bool_decide as Hm; simpl.
  - apply size_pos_non_empty in Hm.
    destruct (key_to_code self) as [k|]; simpl.
    + split_and!; [done| |by intros [= ->]].
      split; [done|]. by intros (? & _ & _ & ?).
    + split_and!; [done| |by intros [= ->]].
      split; [|done]. intros _. by exists m.
  - split_and!; [done| |done]. split; [done|].
    intros (m' & [= <-] & Hne%size_pos_non_empty & _). done.
Qed.

End SessionExtras.

(** X13 on [shift + ctrl + a] and [ctrl + shift + a]. *)
Lemma tables_depend_on_binding_witness :
  value (_map_keys_to_codes (__init__ Example.direct_mapping))
  = value (_map_keys_to_codes (__init__ Example.swapped_mapping)).
Proof.
  refine (proj1 (tables_depend_on_binding
                   (collaborators := Example.collaborators)
                   (__init__ Example.direct_mapping)
                   (__init__ Example.swapped_mapping) [] []
                   (mkKey [Example.shift; Example.ctrl] Example.a_down)
                   (mkKey [Example.ctrl; Example.shift] Example.a_down)
                   ("b", "keyboard") eq_refl eq_refl _)).
  split; [apply perm_swap|reflexivity].
Defined.
